(** * Highlight detection pipeline of clippy-ai-agent

    A shallow embedding of [src/core/content_analyzer.py] (class
    [ContentAnalyzer]), [src/ai/llm_analyzer.py] (class [LLMAnalyzer]) and
    the accessors of [src/utils/config.py] (class [Config]), followed by the
    properties of the pipeline.

    Conventions of the embedding:
    - Python numbers (times, scores, confidences) are rationals [Q]; numeric
      facts are stated with [==], [<=] and [<] of [Q].  Comparisons, [min]
      and [max] are exact in Python as well.  The window arithmetic of
      [_parse_llm_response], whose limits depend on it, is float arithmetic:
      every operation there is followed by the rounding [Float.round] to the
      nearest double.
    - A raised exception is [None] in the option monad; dicts and scored
      values have the types the pipeline gives them.  [Guard] has
      [find_highlights] once more as a caller of arbitrary calls that return
      or raise an exception of some class.
    - Strings are [string]; [lower], [split] and [title] act on ASCII.
    - A dict with a fixed set of possible keys is a record whose optional
      keys are [option] fields; [dict.update] overrides field by field. *)

From Stdlib Require Import Ascii String ZArith QArith Qabs Qround Qpower Lqa Lia.
From stdpp Require Import base tactics option list strings sorting.

Local Open Scope Q_scope.

(** ** Numbers *)

Module Num.

Definition ltb (a b : Q) : bool := negb (Qle_bool b a).
Definition leb (a b : Q) : bool := Qle_bool a b.

(** Python's [min(a, b)]: the first argument unless the second is smaller. *)
Definition py_min (a b : Q) : Q := if ltb b a then b else a.
(** Python's [max(a, b)]: the first argument unless the second is larger. *)
Definition py_max (a b : Q) : Q := if ltb a b then b else a.

Definition of_nat (n : nat) : Q := inject_Z (Z.of_nat n).

(** [x / y], raising [ZeroDivisionError] when [y] is zero. *)
Definition py_div (x y : Q) : option Q :=
  if Qeq_bool y 0 then None else Some (x / y).

End Num.

(** ** Float arithmetic

    Python's [float] is the IEEE 754 double: 53 bits of mantissa, the last
    bit of the smallest subnormal worth [2 ^ -1074].  The result of [+], [-]
    and [/] on floats is the exact result rounded to the nearest double, ties
    to the even mantissa.  Overflow to infinity is not modelled: the bounds
    below are stated for values far under the largest double. *)

Module Float.

Definition prec : Z := 53.
Definition emin : Z := -1074.

(** The integer nearest to [y], the even one of the two when [y] lies half
    way. *)
Definition nearest_even (y : Q) : Z :=
  let f := Qfloor y in
  let r := y - inject_Z f in
  if Num.ltb r (1 # 2) then f
  else if Num.ltb (1 # 2) r then (f + 1)%Z
  else if Z.even f then f else (f + 1)%Z.

(** The exponent of the last mantissa bit of the doubles around [a > 0]:
    the [e] with [2 ^ (e + 52) <= a < 2 ^ (e + 53)], or [emin] for the
    subnormal range.  The logarithms of numerator and denominator give it up
    to one, the comparison settles it. *)
Definition ulp_exponent (a : Q) : Z :=
  let e := (Z.log2 (Qnum a) - Z.log2 (Zpos (Qden a)) - prec)%Z in
  let e := if Num.leb (2 ^ (e + prec)) a then (e + 1)%Z else e in
  Z.max e emin.

(** Round to nearest, ties to even. *)
Definition round (x : Q) : Q :=
  if Qeq_bool x 0 then 0
  else let e := ulp_exponent (Qabs x) in
       Qred (inject_Z (nearest_even (x / 2 ^ e)) * 2 ^ e).

(** [2 ^ -53]: the relative error of one rounding is at most this. *)
Definition unit_roundoff : Q := 1 # 9007199254740992.

Definition add (a b : Q) : Q := round (a + b).
Definition sub (a b : Q) : Q := round (a - b).
Definition div (a b : Q) : Q := round (a / b).

End Float.

(** ** Text *)

Module Text.

Definition is_upper (c : ascii) : bool :=
  let n := nat_of_ascii c in (65 <=? n)%nat && (n <=? 90)%nat.
Definition is_lower (c : ascii) : bool :=
  let n := nat_of_ascii c in (97 <=? n)%nat && (n <=? 122)%nat.
Definition is_alpha (c : ascii) : bool := is_upper c || is_lower c.

Definition lower_char (c : ascii) : ascii :=
  if is_upper c then ascii_of_nat (nat_of_ascii c + 32) else c.
Definition upper_char (c : ascii) : ascii :=
  if is_lower c then ascii_of_nat (nat_of_ascii c - 32) else c.

(** [str.lower()] *)
Fixpoint lower (s : string) : string :=
  match s with
  | EmptyString => EmptyString
  | String c s' => String (lower_char c) (lower s')
  end.

(** [needle in hay] *)
Fixpoint contains (needle hay : string) : bool :=
  String.prefix needle hay ||
  match hay with
  | EmptyString => false
  | String _ hay' => contains needle hay'
  end.

(** [re.search(pattern, text, re.IGNORECASE)] for a pattern without
    metacharacters (all hook patterns are such): a case-insensitive
    substring search. *)
Definition re_search_ignorecase (pattern text : string) : bool :=
  contains (lower pattern) (lower text).

Definition is_space (c : ascii) : bool :=
  let n := nat_of_ascii c in
  ((9 <=? n)%nat && (n <=? 13)%nat) || ((28 <=? n)%nat && (n <=? 32)%nat).

(** [str.split()]: maximal runs of non-whitespace characters.  [cur] is the
    current word, reversed. *)
Fixpoint split_go (s : string) (cur : list ascii) : list string :=
  let flush rest :=
    match cur with
    | [] => rest
    | _ => string_of_list_ascii (rev cur) :: rest
    end in
  match s with
  | EmptyString => flush []
  | String c s' =>
      if is_space c then flush (split_go s' []) else split_go s' (c :: cur)
  end.
Definition split (s : string) : list string := split_go s [].

(** [sep.join(parts)] *)
Fixpoint join (sep : string) (parts : list string) : string :=
  match parts with
  | [] => EmptyString
  | [p] => p
  | p :: rest => p +:+ sep +:+ join sep rest
  end.

(** [s[:n]] and [s[n:]] for [n >= 0] *)
Definition take (n : nat) (s : string) : string := String.substring 0 n s.
Definition drop (n : nat) (s : string) : string :=
  String.substring n (String.length s - n) s.
(** [s[-n:]] for [n > 0] *)
Definition last_chars (n : nat) (s : string) : string :=
  drop (String.length s - n) s.

(** [str.strip()] *)
Fixpoint lstrip (s : string) : string :=
  match s with
  | String c s' => if is_space c then lstrip s' else s
  | EmptyString => EmptyString
  end.
Definition strip (s : string) : string :=
  String.rev (lstrip (String.rev (lstrip s))).

(** [str.title()]: a letter is upper-cased after a non-letter and
    lower-cased after a letter. *)
Fixpoint title_go (s : string) (after_letter : bool) : string :=
  match s with
  | EmptyString => EmptyString
  | String c s' =>
      String (if after_letter then lower_char c else upper_char c)
             (title_go s' (is_alpha c))
  end.
Definition title (s : string) : string := title_go s false.

(** [s.find(c)] for a one-character needle; [None] stands for [-1]. *)
Fixpoint find_char (c : ascii) (s : string) : option nat :=
  match s with
  | EmptyString => None
  | String d s' =>
      if Ascii.eqb c d then Some 0%nat else S <$> find_char c s'
  end.

End Text.

(** ** Stable sorting

    [list.sort(key=...)] is stable, also with [reverse=True].  A stable sort
    is determined by its key order, so insertion sort stands for it:
    [before y x] says that [y] has to come strictly before [x]. *)

Section StableSort.
Context {A : Type} (before : A → A → bool).

Fixpoint insert_stable (x : A) (l : list A) : list A :=
  match l with
  | [] => [x]
  | y :: l' => if before y x then y :: insert_stable x l' else x :: l
  end.

Definition sort_stable (l : list A) : list A := foldr insert_stable [] l.
End StableSort.

(** [l.sort(key=key, reverse=True)] and [l.sort(key=key)] *)
Definition sort_desc {A} (key : A → Q) : list A → list A :=
  sort_stable (λ y x, Num.ltb (key x) (key y)).
Definition sort_asc {A} (key : A → Q) : list A → list A :=
  sort_stable (λ y x, Num.ltb (key y) (key x)).

(** ** Data model *)

(** A transcript segment: [{'start': .., 'end': .., 'text': ..}] *)
Record Segment := mkSegment {
  seg_start : Q;
  seg_end : Q;
  seg_text : string
}.

(** The transcript dict; a missing ['segments'] or ['text'] key is [None]. *)
Record Transcript := mkTranscript {
  tr_segments : option (list Segment);
  tr_text : option string
}.

Record VideoMetadata := mkVideoMetadata {
  vm_title : option string;
  vm_description : option string
}.

(** The dicts appended by [_score_segments]. *)
Record ScoredSegment := mkScored {
  segment_index : nat;
  sc_start_time : Q;
  sc_end_time : Q;
  sc_text : string;
  sc_score : Q;
  sc_emotions : list string;
  sc_duration : Q
}.

(** Values of the ['source'] key. *)
Inductive Source := rule_based | llm | combined.

(** A highlight dict.  ['start_time'], ['end_time'] and ['text'] are read
    with [h[..]] and always present; the other keys are optional. *)
Record Highlight := mkHighlight {
  start_time : Q;
  end_time : Q;
  text : string;
  confidence : option Q;
  score : option Q;
  emotions : option (list string);
  source : option Source;
  title : option string;
  emotion : option string;
  viral_potential : option string;
  reason : option string;
  key_quotes : option (list string)
}.

(** [h.get('confidence', 0)] *)
Definition get_confidence (h : Highlight) : Q := default 0 (confidence h).

(** [existing.update(new)]: every key of [new] overrides. *)
Definition update (existing new : Highlight) : Highlight :=
  let pick {B} (f : Highlight → option B) :=
    match f new with Some v => Some v | None => f existing end in
  {| start_time := start_time new;
     end_time := end_time new;
     text := text new;
     confidence := pick confidence;
     score := pick score;
     emotions := pick emotions;
     source := pick source;
     title := pick title;
     emotion := pick emotion;
     viral_potential := pick viral_potential;
     reason := pick reason;
     key_quotes := pick key_quotes |}.

(** [h['source'] = s] *)
Definition set_source (s : Source) (h : Highlight) : Highlight :=
  {| start_time := start_time h; end_time := end_time h; text := text h;
     confidence := confidence h; score := score h; emotions := emotions h;
     source := Some s; title := title h; emotion := emotion h;
     viral_potential := viral_potential h; reason := reason h;
     key_quotes := key_quotes h |}.

(** [h['confidence'] = c] *)
Definition set_confidence (c : Q) (h : Highlight) : Highlight :=
  {| start_time := start_time h; end_time := end_time h; text := text h;
     confidence := Some c; score := score h; emotions := emotions h;
     source := source h; title := title h; emotion := emotion h;
     viral_potential := viral_potential h; reason := reason h;
     key_quotes := key_quotes h |}.

(** The final dicts of [_enrich_highlights]: [{**highlight, 'title': ..,
    'description': .., 'hashtags': .., 'emotion': .., 'engagement_score': ..,
    'clip_number': ..}]. *)
Record Enriched := mkEnriched {
  en_highlight : Highlight;
  en_title : string;
  en_description : string;
  en_hashtags : list string;
  en_emotion : string;
  en_engagement_score : Q;
  en_clip_number : nat
}.

(** One entry of the ["highlights"] array of the LLM's JSON answer, with
    the value types that the prompt asks for: strings, a number for the
    engagement score, a list of strings for the quotes.  A key that is
    absent is [None]. *)
Record RawHighlight := mkRaw {
  raw_title : option string;
  raw_reason : option string;
  raw_emotion : option string;
  raw_engagement_score : option Q;
  raw_key_quotes : option (list string);
  raw_viral_potential : option string
}.

(** A chunk of [_split_transcript]. *)
Record Chunk := mkChunk {
  ch_text : string;
  ch_segments : list Segment;
  ch_start_time : Q;
  ch_end_time : Q
}.

(** The configuration values read through [Config]. *)
Record Config := mkConfig {
  emotion_weights : string → Q;   (* analysis.emotion_weights, default 1.0 *)
  keywords_boost : list string;   (* analysis.keywords_boost, default [] *)
  min_engagement_score : Q;       (* analysis.min_engagement_score, 0.6 *)
  clip_duration_min : Q;          (* video.clip_duration_min, 25 *)
  clip_duration_max : Q;          (* video.clip_duration_max, 65 *)
  hashtag_max_count : Z;          (* hashtags.max_count, 10 *)
  hashtag_min_count : Z           (* hashtags.min_count, 5 *)
}.

Definition default_config : Config :=
  {| emotion_weights := λ _, 1;
     keywords_boost := [];
     min_engagement_score := 6 # 10;
     clip_duration_min := 25;
     clip_duration_max := 65;
     hashtag_max_count := 10;
     hashtag_min_count := 5 |}.

(** What the analyzers take from outside the repository: the loaded GPT4All
    model ([None] when it is absent), as the answer of [generate] to the
    prompt that [_create_analysis_prompt] formats from a chunk text and the
    video metadata ([None] when [generate] raises); the JSON decoder applied
    to the matched text followed by [data.get('highlights', [])] ([None] when
    either raises); and the draws of [random.choice]. *)
Record Externals := mkExternals {
  model : option (string → VideoMetadata → option string);
  json_highlights : string → option (list RawHighlight);
  random_draw : nat → nat
}.

(** ** Segment scorer ([ContentAnalyzer._score_segments]) *)

Module Scorer.

(** [self.emotion_keywords], in the dict's insertion order. *)
Definition emotion_keywords : list (string * list string) :=
  [ ("funny",
      ["funny"; "hilarious"; "laugh"; "lol"; "comedy"; "joke"; "humor";
       "ridiculous"; "absurd"; "crazy"; "weird"; "bizarre"; "silly"]);
    ("shocking",
      ["shocking"; "unbelievable"; "incredible"; "amazing"; "wow";
       "surprised"; "unexpected"; "mind-blowing"; "insane"; "wtf"]);
    ("inspirational",
      ["inspiring"; "motivational"; "success"; "achievement"; "dream";
       "goal"; "overcome"; "struggle"; "victory"; "triumph"; "hope"]);
    ("educational",
      ["learn"; "tutorial"; "how to"; "explain"; "science"; "fact";
       "research"; "study"; "theory"; "knowledge"; "understand"]);
    ("controversial",
      ["controversial"; "debate"; "argument"; "opinion"; "disagree";
       "wrong"; "right"; "politics"; "religion"; "sensitive"]) ]%string.

(** [self.hook_patterns] *)
Definition hook_patterns : list string :=
  [ "you won't believe"; "secret that"; "nobody tells you"; "shocking truth";
    "never knew"; "mind blown"; "this changes everything";
    "most people don't know"; "hidden truth"; "real reason why" ]%string.

(** [sum(1 for x in xs if p(x))] *)
Definition count_if {A} (p : A → bool) (xs : list A) : nat :=
  length (List.filter p xs).

(** One round of the emotion loop on the state [(score, emotions)]. *)
Definition emotion_step (cfg : Config) (txt : string)
    (st : Q * list string) (entry : string * list string) : Q * list string :=
  let '(emo, keywords) := entry in
  let emotion_score := count_if (λ keyword, Text.contains keyword txt) keywords in
  if (0 <? emotion_score)%nat
  then (st.1 + Num.of_nat emotion_score * emotion_weights cfg emo, st.2 ++ [emo])
  else st.

Definition hook_score (txt : string) : nat :=
  count_if (λ pattern, Text.re_search_ignorecase pattern txt) hook_patterns.

Definition boost_score (cfg : Config) (txt : string) : nat :=
  count_if (λ keyword, Text.contains (Text.lower keyword) txt) (keywords_boost cfg).

(** The score and the emotions of a lower-cased text before the length
    penalty and the position bonus. *)
Definition raw_score (cfg : Config) (txt : string) : Q * list string :=
  let st := foldl (emotion_step cfg txt) (0, []) emotion_keywords in
  let score := st.1 + Num.of_nat (hook_score txt) * 2 in
  let score := score + Num.of_nat (boost_score cfg txt) * (15 # 10) in
  (score, st.2).

Definition length_penalty (txt : string) (score : Q) : Q :=
  let text_length := length (Text.split txt) in
  if (text_length <? 5)%nat then score * (5 # 10)
  else if (100 <? text_length)%nat then score * (7 # 10)
  else score.

(** [i] is the segment's index, [n] is [len(segments)]. *)
Definition position_bonus (i n : nat) (score : Q) : Q :=
  if Num.ltb (Num.of_nat i) (Num.of_nat n * (1 # 10)) then score * (12 # 10)
  else if Num.ltb (Num.of_nat n * (9 # 10)) (Num.of_nat i) then score * (11 # 10)
  else score.

Definition score_segment (cfg : Config) (n i : nat) (segment : Segment)
    : ScoredSegment :=
  let txt := Text.lower (seg_text segment) in
  let '(score, emotions) := raw_score cfg txt in
  let score := length_penalty txt score in
  let score := position_bonus i n score in
  {| segment_index := i;
     sc_start_time := seg_start segment;
     sc_end_time := seg_end segment;
     sc_text := seg_text segment;
     sc_score := score;
     sc_emotions := emotions;
     sc_duration := seg_end segment - seg_start segment |}.

Definition _score_segments (cfg : Config) (segments : list Segment)
    : list ScoredSegment :=
  imap (score_segment cfg (length segments)) segments.

End Scorer.

(** ** Semantic analyzer adapter ([LLMAnalyzer]) *)

Module LLM.

(** *** [_split_transcript] *)

Definition chunk_size : nat := 1000.
Definition overlap : nat := 200.

Definition empty_chunk : Chunk :=
  {| ch_text := EmptyString; ch_segments := []; ch_start_time := 0; ch_end_time := 0 |}.

(** A non-empty string is truthy. *)
Definition nonempty (s : string) : bool :=
  match s with EmptyString => false | _ => true end.

Definition overlap_text (txt : string) : string :=
  if (overlap <? String.length txt)%nat then Text.last_chars overlap txt else txt.

(** One round of the loop on the state [(chunks, current_chunk)]. *)
Definition split_step (st : list Chunk * Chunk) (segment : Segment)
    : list Chunk * Chunk :=
  let '(chunks, current) := st in
  let segment_text := seg_text segment in
  if (chunk_size <? String.length (ch_text current +:+ segment_text))%nat
     && nonempty (ch_text current)
  then
    let finished :=
      {| ch_text := ch_text current;
         ch_segments := ch_segments current;
         ch_start_time := ch_start_time current;
         ch_end_time := from_option seg_end 0 (last (ch_segments current)) |} in
    (chunks ++ [finished],
     {| ch_text := overlap_text (ch_text current) +:+ " " +:+ segment_text;
        ch_segments := [segment];
        ch_start_time := seg_start segment;
        ch_end_time := seg_end segment |})
  else
    (chunks,
     {| ch_text := ch_text current +:+ " " +:+ segment_text;
        ch_segments := ch_segments current ++ [segment];
        ch_start_time :=
          match ch_segments current with
          | [] => seg_start segment
          | _ => ch_start_time current
          end;
        ch_end_time := seg_end segment |}).

Definition _split_transcript (transcript : string) (segments : list Segment)
    : list Chunk :=
  let '(chunks, current) := foldl split_step ([], empty_chunk) segments in
  if nonempty (ch_text current) then chunks ++ [current] else chunks.

(** *** [_find_matching_segments] *)

(** Equality of two segment dicts ([==] of Python). *)
Definition segment_eqb (a b : Segment) : bool :=
  Qeq_bool (seg_start a) (seg_start b) && Qeq_bool (seg_end a) (seg_end b)
  && String.eqb (seg_text a) (seg_text b).

Definition segment_in (s : Segment) (l : list Segment) : bool :=
  existsb (segment_eqb s) l.

Definition quote_matches (quote_lower : string) (segment : Segment) : bool :=
  let segment_text := Text.lower (seg_text segment) in
  Text.contains quote_lower segment_text
  || existsb (λ word, Text.contains word segment_text) (Text.split quote_lower).

(** The two nested loops collecting [matching_segments]. *)
Definition collect_matches (key_quotes : list string) (segments : list Segment)
    : list Segment :=
  foldl (λ matching quote,
           foldl (λ matching segment,
                    if quote_matches (Text.lower quote) segment
                       && negb (segment_in segment matching)
                    then matching ++ [segment] else matching)
                 matching segments)
        [] key_quotes.

(** The elements of a list as a set: each once. *)
Fixpoint to_set (l : list string) : list string :=
  match l with
  | [] => []
  | x :: l' => x :: List.filter (λ y, negb (String.eqb x y)) (to_set l')
  end.

Definition word_overlap (quote_words : list string) (segment : Segment) : nat :=
  let segment_words := Text.split (Text.lower (seg_text segment)) in
  length (List.filter (λ w, existsb (String.eqb w) segment_words) quote_words).

Definition _find_matching_segments (key_quotes : list string)
    (segments : list Segment) : list Segment :=
  match key_quotes with
  | [] => if (3 <=? length segments)%nat then take 3 segments else segments
  | _ =>
      let matching := sort_asc seg_start (collect_matches key_quotes segments) in
      match matching with
      | _ :: _ => matching
      | [] =>
          let quote_words :=
            to_set (Text.split (Text.lower (Text.join " " key_quotes))) in
          let segment_scores :=
            map (λ segment, (segment, word_overlap quote_words segment)) segments in
          let sorted := sort_desc (λ p, Num.of_nat p.2) segment_scores in
          map fst (List.filter (λ p, (0 <? p.2)%nat) (take 3 sorted))
      end
  end.

(** *** [_parse_llm_response] *)

(** [re.search(r'\{.*\}', response, re.DOTALL)]: from the first opening
    brace to the last closing brace after it. *)
Fixpoint from_first (c : ascii) (s : string) : option string :=
  match s with
  | EmptyString => None
  | String d s' => if Ascii.eqb c d then Some s else from_first c s'
  end.

Definition json_match (response : string) : option string :=
  opened ← from_first "{" response;
  String.rev <$> from_first "}" (String.rev opened).

(** The window of a matched span inside a chunk (the part commented
    "Ensure clip duration is within limits"). *)
Definition resolve_window (cfg : Config) (chunk_start chunk_end : Q)
    (start_time end_time : Q) : Q * Q :=
  let duration := Float.sub end_time start_time in
  let min_duration := clip_duration_min cfg in
  let max_duration := clip_duration_max cfg in
  if Num.ltb duration min_duration then
    let needed_time := Float.sub min_duration duration in
    (Num.py_max chunk_start (Float.sub start_time (Float.div needed_time 2)),
     Num.py_min chunk_end (Float.add end_time (Float.div needed_time 2)))
  else if Num.ltb max_duration duration then
    let excess_time := Float.sub duration max_duration in
    (Float.add start_time (Float.div excess_time 2),
     Float.sub end_time (Float.div excess_time 2))
  else (start_time, end_time).

(** The body of the conversion loop: [None] when no segment matches. *)
Definition convert_highlight (cfg : Config) (chunk : Chunk) (raw : RawHighlight)
    : option Highlight :=
  let matching_segments :=
    _find_matching_segments (default [] (raw_key_quotes raw)) (ch_segments chunk) in
  first ← head matching_segments;
  final ← last matching_segments;
  let '(start_time, end_time) :=
    resolve_window cfg (ch_start_time chunk) (ch_end_time chunk)
                   (seg_start first) (seg_end final) in
  Some {| start_time := start_time;
          end_time := end_time;
          text := Text.join " " (map seg_text matching_segments);
          title := Some (default "Viral Moment"%string (raw_title raw));
          emotion := Some (default "neutral"%string (raw_emotion raw));
          confidence := Some (default (5 # 10) (raw_engagement_score raw));
          viral_potential := Some (default "medium"%string (raw_viral_potential raw));
          reason := Some (default EmptyString (raw_reason raw));
          key_quotes := Some (default [] (raw_key_quotes raw));
          score := None; emotions := None; source := None |}.

Definition _parse_llm_response (cfg : Config) (ext : Externals)
    (response : string) (chunk : Chunk) : list Highlight :=
  match json_match response with
  | None => []                                   (* "No JSON found" *)
  | Some matched =>
      match json_highlights ext matched with
      | None => []                               (* except Exception *)
      | Some highlights => omap (convert_highlight cfg chunk) highlights
      end
  end.

(** *** [_analyze_chunk]

    Any exception raised inside yields no highlight. *)
Definition _analyze_chunk (cfg : Config) (ext : Externals)
    (generate : string → VideoMetadata → option string)
    (chunk : Chunk) (meta : VideoMetadata) : list Highlight :=
  match generate (ch_text chunk) meta with
  | None => []
  | Some response => _parse_llm_response cfg ext response chunk
  end.

(** *** [_rank_highlights]

    The body of the [try]; on highlights whose values have the types above
    nothing in it raises. *)

Definition emotion_boost (emo : string) : Q :=
  if String.eqb emo "funny" then 12 # 10
  else if String.eqb emo "shocking" then 11 # 10
  else if String.eqb emo "inspirational" then 1
  else if String.eqb emo "controversial" then 11 # 10
  else if String.eqb emo "educational" then 9 # 10
  else 1.

Definition rank_one (h : Highlight) : Highlight :=
  let score := default (5 # 10) (confidence h) in
  let viral := default "medium"%string (viral_potential h) in
  let score :=
    if String.eqb viral "high" then score * (13 # 10)
    else if String.eqb viral "low" then score * (8 # 10)
    else score in
  let score := score * emotion_boost (default "neutral"%string (emotion h)) in
  set_confidence (Num.py_min score 1) h.

Definition _rank_highlights (highlights : list Highlight) : list Highlight :=
  take 5 (sort_desc get_confidence (map rank_one highlights)).

(** *** [_fallback_analysis] *)

Definition fallback_emotion_keywords : list (string * list string) :=
  [ ("shocking", ["unbelievable"; "incredible"; "amazing"; "wow"; "surprised"]);
    ("funny", ["funny"; "hilarious"; "laugh"; "joke"; "comedy"]);
    ("inspirational", ["inspiring"; "motivational"; "success"; "achievement"])
  ]%string.

Definition pronouns : list string := ["i "; "my "; "me "]%string.
Definition superlatives : list string :=
  ["best"; "worst"; "biggest"; "smallest"; "most"; "least"]%string.

(** [any(k in txt for k in keys)] *)
Definition any_in (keys : list string) (txt : string) : bool :=
  existsb (λ k, Text.contains k txt) keys.

Definition fallback_emotion_step (text_lower : string)
    (st : Q * list string) (entry : string * list string) : Q * list string :=
  if any_in entry.2 text_lower then (st.1 + (3 # 10), st.2 ++ [entry.1]) else st.

(** The score and the emotions of one segment. *)
Definition fallback_score (segment : Segment) : Q * list string :=
  let text_lower := Text.lower (seg_text segment) in
  let st := foldl (fallback_emotion_step text_lower) (0, []) fallback_emotion_keywords in
  let score := st.1 in
  let score := if Text.contains "?" (seg_text segment) then score + (2 # 10) else score in
  let score := if any_in pronouns text_lower then score + (1 # 10) else score in
  let score := if any_in superlatives text_lower then score + (2 # 10) else score in
  (score, st.2).

(** The highlight built around segment [i], or no highlight when the score
    is under the threshold; indexing out of range raises. *)
Definition fallback_highlight (segments : list Segment) (i : nat)
    (segment : Segment) : option (option Highlight) :=
  let '(score, emotions) := fallback_score segment in
  if Num.leb (4 # 10) score then
    let start_idx := (i - 1)%nat in
    let end_idx := Nat.min (length segments - 1) (i + 2) in
    first ← segments !! start_idx;
    final ← segments !! end_idx;
    let combined_text :=
      Text.join " " (map seg_text (take (end_idx + 1 - start_idx) (drop start_idx segments))) in
    Some (Some {| start_time := seg_start first;
                  end_time := seg_end final;
                  text := combined_text;
                  confidence := Some score;
                  emotions := Some emotions;
                  emotion := Some (default "neutral"%string (head emotions));
                  score := None; source := None; title := None;
                  viral_potential := None; reason := None; key_quotes := None |})
  else Some None.

Definition _fallback_analysis (full_transcript : string) (segments : list Segment)
    : option (list Highlight) :=
  highlights ← mapM (λ p, fallback_highlight segments p.1 p.2)
                    (imap (λ i s, (i, s)) segments);
  Some (take 3 (omap id highlights)).

(** *** [analyze_content]

    Inside the [try], [_analyze_chunk] catches every exception of its own and
    neither [_split_transcript] nor [_rank_highlights] raises, so the [except]
    branch is never taken and is left out. *)
Definition analyze_content (cfg : Config) (ext : Externals)
    (full_transcript : string) (segments : list Segment) (meta : VideoMetadata)
    : option (list Highlight) :=
  match model ext with
  | None => _fallback_analysis full_transcript segments
  | Some generate =>
      let chunks := _split_transcript full_transcript segments in
      let highlights :=
        concat (map (λ chunk, _analyze_chunk cfg ext generate chunk meta) chunks) in
      Some (_rank_highlights highlights)
  end.

End LLM.

(** ** Content analyzer ([ContentAnalyzer]) *)

Module Analyzer.

(** *** [_combine_analyses]: rule-based highlights *)

(** [original_segments[end_idx]['end'] - original_segments[start_idx]['start']];
    an index out of range raises. *)
Definition span (original_segments : list Segment) (start_idx end_idx : nat)
    : option Q :=
  e ← original_segments !! end_idx;
  s ← original_segments !! start_idx;
  Some (seg_end e - seg_start s).

(** "Extend forward if needed": [remaining] is
    [len(original_segments) - 1 - end_idx], so that the loop condition
    [end_idx < len(original_segments) - 1] reads [remaining > 0]. *)
Fixpoint extend_forward (original_segments : list Segment) (min_duration : Q)
    (start_idx remaining end_idx : nat) (total_duration : Q) : option (nat * Q) :=
  match remaining with
  | O => Some (end_idx, total_duration)
  | S remaining' =>
      if Num.ltb total_duration min_duration then
        total ← span original_segments start_idx (S end_idx);
        extend_forward original_segments min_duration start_idx remaining'
                       (S end_idx) total
      else Some (end_idx, total_duration)
  end.

(** "Extend backward if still too short" *)
Fixpoint extend_backward (original_segments : list Segment) (min_duration : Q)
    (end_idx start_idx : nat) (total_duration : Q) : option (nat * Q) :=
  match start_idx with
  | O => Some (O, total_duration)
  | S start_idx' =>
      if Num.ltb total_duration min_duration then
        total ← span original_segments start_idx' end_idx;
        extend_backward original_segments min_duration end_idx start_idx' total
      else Some (start_idx, total_duration)
  end.

(** "Trim if too long" *)
Fixpoint trim (original_segments : list Segment) (max_duration : Q)
    (start_idx end_idx : nat) (total_duration : Q) : option (nat * Q) :=
  match end_idx with
  | O => Some (O, total_duration)
  | S end_idx' =>
      if Num.ltb max_duration total_duration && (start_idx <? end_idx)%nat then
        total ← span original_segments start_idx end_idx';
        trim original_segments max_duration start_idx end_idx' total
      else Some (end_idx, total_duration)
  end.

(** The three loops: the final [(start_idx, end_idx, total_duration)]. *)
Definition extend_segment (cfg : Config) (original_segments : list Segment)
    (segment : ScoredSegment) : option (nat * nat * Q) :=
  let start_idx := segment_index segment in
  let end_idx := start_idx in
  let total_duration := sc_duration segment in
  '(end_idx, total_duration) ←
    extend_forward original_segments (clip_duration_min cfg) start_idx
      (length original_segments - 1 - end_idx) end_idx total_duration;
  '(start_idx, total_duration) ←
    extend_backward original_segments (clip_duration_min cfg) end_idx
      start_idx total_duration;
  '(end_idx, total_duration) ←
    trim original_segments (clip_duration_max cfg) start_idx end_idx
      total_duration;
  Some (start_idx, end_idx, total_duration).

(** The highlight appended for one segment that reaches the minimum score. *)
Definition rule_based_highlight (cfg : Config) (original_segments : list Segment)
    (segment : ScoredSegment) : option Highlight :=
  '(start_idx, end_idx, _) ← extend_segment cfg original_segments segment;
  first ← original_segments !! start_idx;
  final ← original_segments !! end_idx;
  let combined_text :=
    Text.join " " (map seg_text
      (take (end_idx + 1 - start_idx) (drop start_idx original_segments))) in
  Some {| start_time := seg_start first;
          end_time := seg_end final;
          text := combined_text;
          score := Some (sc_score segment);
          emotions := Some (sc_emotions segment);
          source := Some rule_based;
          confidence := Some (Num.py_min (sc_score segment / 3) 1);
          title := None; emotion := None; viral_potential := None;
          reason := None; key_quotes := None |}.

Definition reaches_min_score (cfg : Config) (segment : ScoredSegment) : bool :=
  Num.leb (min_engagement_score cfg) (sc_score segment).

Definition rule_based_highlights (cfg : Config)
    (scored_segments : list ScoredSegment) (original_segments : list Segment)
    : option (list Highlight) :=
  mapM (rule_based_highlight cfg original_segments)
       (List.filter (reaches_min_score cfg) scored_segments).

(** *** [_combine_analyses]: adding the LLM highlights *)

(** The proximity test of the merge. *)
Definition same_moment (llm_highlight existing : Highlight) : bool :=
  Num.ltb (Qabs (start_time llm_highlight - start_time existing)) 10
  || Num.ltb (Qabs (end_time llm_highlight - end_time existing)) 10.

(** "Merge with existing highlight (take higher confidence)" *)
Definition merge_pair (llm_highlight existing : Highlight) : Highlight :=
  if Num.ltb (get_confidence existing) (get_confidence llm_highlight)
  then set_source combined (update existing llm_highlight)
  else existing.

(** The inner loop: the list after merging into the first entry that is the
    same moment, or [None] when [overlap_found] stays false. *)
Fixpoint merge_existing (llm_highlight : Highlight) (entries : list Highlight)
    : option (list Highlight) :=
  match entries with
  | [] => None
  | existing :: rest =>
      if same_moment llm_highlight existing
      then Some (merge_pair llm_highlight existing :: rest)
      else (existing ::.) <$> merge_existing llm_highlight rest
  end.

Definition add_llm_highlight (entries : list Highlight)
    (llm_highlight : Highlight) : list Highlight :=
  match merge_existing llm_highlight entries with
  | Some merged => merged
  | None => entries ++ [set_source llm llm_highlight]
  end.

Definition _combine_analyses (cfg : Config)
    (scored_segments : list ScoredSegment) (llm_highlights : list Highlight)
    (original_segments : list Segment) : option (list Highlight) :=
  entries ← rule_based_highlights cfg scored_segments original_segments;
  Some (foldl add_llm_highlight entries llm_highlights).

(** *** [_filter_highlights] *)

Definition max_highlights : nat := 5.
Definition min_confidence : Q := 3 # 10.

Definition duration (h : Highlight) : Q := end_time h - start_time h.

Definition overlap_duration (highlight existing : Highlight) : Q :=
  let overlap_start := Num.py_max (start_time highlight) (start_time existing) in
  let overlap_end := Num.py_min (end_time highlight) (end_time existing) in
  Num.py_max 0 (overlap_end - overlap_start).

(** [overlap_duration / highlight_duration]: raises on a highlight of
    duration zero. *)
Definition overlap_ratio (highlight existing : Highlight) : option Q :=
  Num.py_div (overlap_duration highlight existing) (duration highlight).

(** The inner loop: whether [overlap_found] ends up true. *)
Fixpoint overlap_found (highlight : Highlight) (filtered : list Highlight)
    : option bool :=
  match filtered with
  | [] => Some false
  | existing :: rest =>
      ratio ← overlap_ratio highlight existing;
      if Num.ltb (5 # 10) ratio then Some true else overlap_found highlight rest
  end.

Definition filter_step (filtered : option (list Highlight)) (highlight : Highlight)
    : option (list Highlight) :=
  filtered ← filtered;
  found ← overlap_found highlight filtered;
  Some (if found : bool then filtered else filtered ++ [highlight]).

Definition remove_overlaps (highlights : list Highlight) : option (list Highlight) :=
  foldl filter_step (Some []) highlights.

Definition _filter_highlights (highlights : list Highlight)
    : option (list Highlight) :=
  filtered ← remove_overlaps (sort_desc get_confidence highlights);
  let filtered := take max_highlights filtered in
  Some (List.filter (λ h, Num.leb min_confidence (get_confidence h)) filtered).

(** *** Enrichment *)

(** [x in xs] for strings *)
Definition mem (x : string) (xs : list string) : bool := bool_decide (x ∈ xs).

Definition title_templates (emotions : list string) : list string :=
  if mem "funny" emotions then
    ["This Will Make You Laugh"; "Hilarious Moment"; "Comedy Gold";
     "You Won't Stop Laughing"]%string
  else if mem "shocking" emotions then
    ["You Won't Believe This"; "Shocking Truth Revealed";
     "Mind-Blowing Moment"; "This Changes Everything"]%string
  else if mem "inspirational" emotions then
    ["This Will Inspire You"; "Motivational Moment"; "Life-Changing Advice";
     "Inspiring Truth"]%string
  else ["Viral Moment"; "Must-See Clip"; "Trending Now"; "Watch This"]%string.

(** The title made from a leading question, when there is a short one. *)
Definition question_title (txt : string) : option string :=
  question_start ← Text.find_char "?" txt;
  if (0 <? question_start)%nat then
    let question := Text.strip (Text.take (question_start + 1) txt) in
    if (length (Text.split question) <=? 8)%nat
    then Some (Text.title question) else None
  else None.

(** [random.choice(templates)] with the given draw. *)
Definition random_choice (draw : nat) (templates : list string) : string :=
  default EmptyString (templates !! (draw mod length templates)%nat).

Definition _generate_title (cfg : Config) (draw : nat) (txt : string)
    (emotions : list string) : string :=
  let templates := title_templates emotions in
  match List.find (λ keyword, Text.contains (Text.lower keyword) (Text.lower txt))
                  (keywords_boost cfg) with
  | Some keyword => "The " +:+ Text.title keyword +:+ " Secret"
  | None =>
      match question_title txt with
      | Some t => t
      | None => random_choice draw templates
      end
  end.

Definition newline : string := String (ascii_of_nat 10) EmptyString.

Definition _generate_description (txt : string) (meta : VideoMetadata) : string :=
  let description := Text.strip txt in
  let description :=
    if (150 <? String.length description)%nat
    then Text.take 147 description +:+ "..." else description in
  match vm_title meta with
  | Some t =>
      if LLM.nonempty t
      then description +:+ newline +:+ newline +:+ "From: " +:+ t
      else description
  | None => description
  end.

Definition base_tags : list string := ["#viral"; "#trending"; "#fyp"]%string.

Definition emotion_tags : list (string * list string) :=
  [ ("funny", ["#comedy"; "#humor"; "#laugh"]);
    ("shocking", ["#mindblown"; "#incredible"; "#wow"]);
    ("inspirational", ["#motivation"; "#inspiration"; "#success"]);
    ("educational", ["#learning"; "#facts"; "#knowledge"]);
    ("controversial", ["#debate"; "#opinion"; "#discussion"]) ]%string.

Definition topic_keywords : list (string * string) :=
  [ ("business", "#business"); ("money", "#money"); ("success", "#success");
    ("health", "#health"); ("fitness", "#fitness"); ("food", "#food");
    ("technology", "#tech"); ("ai", "#ai"); ("science", "#science");
    ("travel", "#travel"); ("lifestyle", "#lifestyle"); ("tips", "#tips")
  ]%string.

Definition generic_tags : list string :=
  ["#content"; "#video"; "#shorts"; "#reels"; "#tiktok"]%string.

(** [d[key]] of a dict given as its list of items, if [key in d]. *)
Definition lookup_assoc {B} (key : string) (d : list (string * B)) : option B :=
  snd <$> List.find (λ p, String.eqb key p.1) d.

(** The hashtags before duplicates are removed: base tags, the tags of each
    emotion, the tags of the topics found in the text. *)
Definition raw_hashtags (txt : string) (emotions : list string) : list string :=
  let text_lower := Text.lower txt in
  base_tags
  ++ concat (map (λ emo, default [] (lookup_assoc emo emotion_tags)) emotions)
  ++ map snd (List.filter (λ p, Text.contains p.1 text_lower) topic_keywords).

(** [list(dict.fromkeys(l))]: keys are inserted in order and a key that is
    already there keeps its place. *)
Definition dict_fromkeys (l : list string) : list string :=
  foldl (λ keys k, if mem k keys then keys else keys ++ [k]) [] l.

(** [l[:k]], also for a negative [k]. *)
Definition slice_to (k : Z) (l : list string) : list string :=
  if (k <? 0)%Z then take (length l - Z.to_nat (- k)) l else take (Z.to_nat k) l.

(** "Add generic hashtags to reach minimum" *)
Definition pad_step (min_count : Z) (hashtags : list string) (tag : string)
    : list string :=
  if negb (mem tag hashtags) && (Z.of_nat (length hashtags) <? min_count)%Z
  then hashtags ++ [tag] else hashtags.

Definition _generate_hashtags (cfg : Config) (txt : string)
    (emotions : list string) : list string :=
  let hashtags := dict_fromkeys (raw_hashtags txt emotions) in
  let max_count := hashtag_max_count cfg in
  let min_count := hashtag_min_count cfg in
  if (max_count <? Z.of_nat (length hashtags))%Z then slice_to max_count hashtags
  else if (Z.of_nat (length hashtags) <? min_count)%Z
  then foldl (pad_step min_count) hashtags generic_tags
  else hashtags.

Definition emotion_priority : list string :=
  ["funny"; "shocking"; "inspirational"; "controversial"; "educational"]%string.

Definition _get_primary_emotion (emotions : list string) : string :=
  match emotions with
  | [] => "neutral"
  | first :: _ =>
      default first (List.find (λ emo, mem emo emotions) emotion_priority)
  end.

(** The dict built inside the [try] of [_enrich_highlights]; with a
    well-typed highlight nothing in it raises. *)
Definition enrich_one (cfg : Config) (ext : Externals) (meta : VideoMetadata)
    (i : nat) (highlight : Highlight) : Enriched :=
  let emos := default [] (emotions highlight) in
  {| en_highlight := highlight;
     en_title := _generate_title cfg (random_draw ext i) (text highlight) emos;
     en_description := _generate_description (text highlight) meta;
     en_hashtags := _generate_hashtags cfg (text highlight) emos;
     en_emotion := _get_primary_emotion emos;
     en_engagement_score := default (5 # 10) (confidence highlight);
     en_clip_number := i + 1 |}.

Definition _enrich_highlights (cfg : Config) (ext : Externals)
    (highlights : list Highlight) (meta : VideoMetadata) : list Enriched :=
  imap (enrich_one cfg ext meta) highlights.

(** *** [find_highlights] *)

(** The body of the [try]; [None] is a raised exception. *)
Definition find_highlights_body (cfg : Config) (ext : Externals)
    (transcript : Transcript) (meta : VideoMetadata) : option (list Enriched) :=
  let segments := default [] (tr_segments transcript) in
  match segments with
  | [] => Some []                          (* "No transcript segments found" *)
  | _ =>
      let scored_segments := Scorer._score_segments cfg segments in
      full_text ← tr_text transcript;      (* transcript['text'] *)
      llm_highlights ← LLM.analyze_content cfg ext full_text segments meta;
      combined_highlights ←
        _combine_analyses cfg scored_segments llm_highlights segments;
      filtered_highlights ← _filter_highlights combined_highlights;
      Some (_enrich_highlights cfg ext filtered_highlights meta)
  end.

(** [except Exception: return []] *)
Definition find_highlights (cfg : Config) (ext : Externals)
    (transcript : Transcript) (meta : VideoMetadata) : list Enriched :=
  match find_highlights_body cfg ext transcript meta with
  | Some final_highlights => final_highlights
  | None => []
  end.

End Analyzer.

(** ** [find_highlights] as a caller ([try] / [except Exception])

    What the [try] of [find_highlights] protects against is any failure of
    what it calls, also on arguments of the wrong type.  Here the calls are
    parameters that return a value or raise, and the exception raised has a
    class. *)

Module Guard.

(** What a call may raise: the errors, whose classes derive from
    [Exception], and the exits and interrupts, whose classes derive from
    [BaseException] only. *)
Inductive Raisable :=
  | KeyError
  | TypeError
  | AttributeError
  | IndexError
  | ZeroDivisionError
  | OtherException (name : string)
  | KeyboardInterrupt
  | SystemExit
  | GeneratorExit
  | CancelledError.

(** [isinstance(e, Exception)] *)
Definition is_Exception (e : Raisable) : bool :=
  match e with
  | KeyboardInterrupt | SystemExit | GeneratorExit | CancelledError => false
  | _ => true
  end.

Inductive Outcome (A : Type) :=
  | Returned (a : A)
  | Raised (e : Raisable).
Arguments Returned {A} a.
Arguments Raised {A} e.

#[global] Instance outcome_bind : MBind Outcome :=
  λ A B f o, match o with Returned a => f a | Raised e => Raised e end.

(** [try: body except Exception: handler] *)
Definition try_except_Exception {A} (body handler : Outcome A) : Outcome A :=
  match body with
  | Returned a => Returned a
  | Raised e => if is_Exception e then handler else Raised e
  end.

(** The calls of [find_highlights], in the order of the source:
    [transcript.get('segments', [])], the test [not segments],
    [_score_segments], [transcript['text']], [analyze_content],
    [_combine_analyses], [_filter_highlights], [_enrich_highlights]; and the
    empty list.  The calls of the logger are taken not to raise. *)
Record Callees (Segments Scored Text Candidates Combined Filtered Clips : Type) :=
  mkCallees {
    get_segments : Outcome Segments;
    is_empty : Segments → Outcome bool;
    score_segments : Segments → Outcome Scored;
    get_text : Outcome Text;
    analyze_content : Text → Segments → Outcome Candidates;
    combine_analyses : Scored → Candidates → Segments → Outcome Combined;
    filter_highlights : Combined → Outcome Filtered;
    enrich_highlights : Filtered → Outcome Clips;
    no_clips : Clips
  }.
Arguments mkCallees {_ _ _ _ _ _ _}.
Arguments get_segments {_ _ _ _ _ _ _} c.
Arguments is_empty {_ _ _ _ _ _ _} c.
Arguments score_segments {_ _ _ _ _ _ _} c.
Arguments get_text {_ _ _ _ _ _ _} c.
Arguments analyze_content {_ _ _ _ _ _ _} c.
Arguments combine_analyses {_ _ _ _ _ _ _} c.
Arguments filter_highlights {_ _ _ _ _ _ _} c.
Arguments enrich_highlights {_ _ _ _ _ _ _} c.
Arguments no_clips {_ _ _ _ _ _ _} c.

Section Caller.
Context {Segments Scored Text Candidates Combined Filtered Clips : Type}.
Context (c : Callees Segments Scored Text Candidates Combined Filtered Clips).

(** The body of the [try]. *)
Definition find_highlights_body : Outcome Clips :=
  segments ← get_segments c;
  empty ← is_empty c segments;
  if empty : bool then Returned (no_clips c)
  else
    scored_segments ← score_segments c segments;
    full_text ← get_text c;
    llm_highlights ← analyze_content c full_text segments;
    combined_highlights ← combine_analyses c scored_segments llm_highlights segments;
    filtered_highlights ← filter_highlights c combined_highlights;
    enrich_highlights c filtered_highlights.

Definition find_highlights : Outcome Clips :=
  try_except_Exception find_highlights_body (Returned (no_clips c)).

End Caller.

(** [Some] for a returned value, [None] raising the given error. *)
Definition or_raise {A} (e : Raisable) (o : option A) : Outcome A :=
  match o with Some a => Returned a | None => Raised e end.

(** The calls as the analyzers above make them on a transcript and metadata
    of the expected types: a missing ['text'] key is a [KeyError], an index
    out of range an [IndexError], the division of the filter a
    [ZeroDivisionError]. *)
Definition typed_callees (cfg : Config) (ext : Externals)
    (transcript : Transcript) (meta : VideoMetadata)
    : Callees (list Segment) (list ScoredSegment) string (list Highlight)
              (list Highlight) (list Highlight) (list Enriched) :=
  {| get_segments := Returned (default [] (tr_segments transcript));
     is_empty := λ segments,
       Returned (match segments with [] => true | _ => false end);
     score_segments := λ segments,
       Returned (Scorer._score_segments cfg segments);
     get_text := or_raise KeyError (tr_text transcript);
     analyze_content := λ full_text segments,
       or_raise IndexError (LLM.analyze_content cfg ext full_text segments meta);
     combine_analyses := λ scored_segments llm_highlights segments,
       or_raise IndexError
         (Analyzer._combine_analyses cfg scored_segments llm_highlights segments);
     filter_highlights := λ combined_highlights,
       or_raise ZeroDivisionError (Analyzer._filter_highlights combined_highlights);
     enrich_highlights := λ filtered_highlights,
       Returned (Analyzer._enrich_highlights cfg ext filtered_highlights meta);
     no_clips := [] |}.

End Guard.

(** ** Configuration store ([Config.get] and [Config.set]) *)

Module Settings.

(** What [yaml.safe_load] yields: a mapping, as its items in insertion
    order, or any other value (number, string, list, null).  The mappings
    form a tree: no dict is reached by two paths, as in a file without YAML
    aliases. *)
#[local] Unset Elimination Schemes.
Inductive Value :=
| Mapping (items : list (string * Value))
| Scalar (content : string).
#[local] Set Elimination Schemes.

(** [key.split('.')]: [cur] is the current component, reversed. *)
Fixpoint split_dot_go (s : string) (cur : list ascii) : list string :=
  match s with
  | EmptyString => [string_of_list_ascii (rev cur)]
  | String c s' =>
      if Ascii.eqb c "."
      then string_of_list_ascii (rev cur) :: split_dot_go s' []
      else split_dot_go s' (c :: cur)
  end.
Definition split_dot (key : string) : list string := split_dot_go key [].

(** [d[k]] on the items of a dict; [None] is [KeyError]. *)
Fixpoint item (k : string) (items : list (string * Value)) : option Value :=
  match items with
  | [] => None
  | (k', v) :: rest => if String.eqb k k' then Some v else item k rest
  end.

(** [d[k] = v]: an existing key keeps its place, a new one goes last. *)
Fixpoint assign (k : string) (v : Value) (items : list (string * Value))
    : list (string * Value) :=
  match items with
  | [] => [(k, v)]
  | (k', v') :: rest =>
      if String.eqb k k' then (k', v) :: rest else (k', v') :: assign k v rest
  end.

(** The loop [for k in keys: value = value[k]]; [None] is the [KeyError] of
    a missing key or the [TypeError] of indexing what is not a mapping. *)
Fixpoint descend (keys : list string) (value : Value) : option Value :=
  match keys with
  | [] => Some value
  | k :: keys' =>
      match value with
      | Mapping items => v ← item k items; descend keys' v
      | Scalar _ => None
      end
  end.

(** [Config.get(key, default)] on the loaded [_config]. *)
Definition get (config : Value) (key : string) (default_value : Value) : Value :=
  default default_value (descend (split_dot key) config).

(** [Config.set] on the key components: the mappings on the path are
    created where missing and the last component is assigned.  [None] is the
    [TypeError] raised on meeting a value that is not a mapping; nothing has
    been changed by then, as a mapping is only created below a missing key. *)
Fixpoint set_path (keys : list string) (value : Value) (config : Value)
    : option Value :=
  match config with
  | Scalar _ => None
  | Mapping items =>
      match keys with
      | [] => None
      | [k] => Some (Mapping (assign k value items))
      | k :: keys' =>
          let child := default (Mapping []) (item k items) in
          child' ← set_path keys' value child;
          Some (Mapping (assign k child' items))
      end
  end.

(** [Config.set(key, value)]: the new [_config]. *)
Definition set (config : Value) (key : string) (value : Value) : option Value :=
  set_path (split_dot key) value config.

End Settings.

(** A loaded configuration with a [video] section. *)
Definition video_settings : Settings.Value :=
  Settings.Mapping
    [ ("video"%string,
       Settings.Mapping [ ("clip_duration_min"%string, Settings.Scalar "25");
                          ("resolution"%string, Settings.Scalar "1080x1920") ]);
      ("debug"%string, Settings.Scalar "false") ].

(** ** Predicates and inputs used in the statements *)

(** A lower-cased text in which no emotion keyword, no hook pattern and no
    boost keyword is found. *)
Definition matches_nothing (cfg : Config) (txt : string) : bool :=
  forallb (λ entry : string * list string,
             forallb (λ keyword, negb (Text.contains keyword txt)) entry.2)
          Scorer.emotion_keywords
  && forallb (λ pattern, negb (Text.re_search_ignorecase pattern txt))
             Scorer.hook_patterns
  && forallb (λ keyword, negb (Text.contains (Text.lower keyword) txt))
             (keywords_boost cfg).

Definition intro_segments : list Segment :=
  [ mkSegment 0 5 "intro";
    mkSegment 5 40 "you won't believe this secret nobody tells you";
    mkSegment 40 45 "outro" ].

(** A relation holding between every element and its successor. *)
Fixpoint adjacent {A} (R : A → A → Prop) (l : list A) : Prop :=
  match l with
  | a :: (b :: _) as l' => R a b ∧ adjacent R l'
  | _ => True
  end.

(** The text of [next] starts with the trailing overlap of [prev], a space
    and the text of the first segment of [next]. *)
Definition carries_overlap (prev next : Chunk) : Prop :=
  ∃ segment others tail,
    ch_segments next = segment :: others
    ∧ ch_text next
      = LLM.overlap_text (ch_text prev) +:+ " " +:+ seg_text segment +:+ tail.



(** The highlight of the JSON answer below. *)
Definition secret_raw : RawHighlight :=
  {| raw_title := Some "The Secret"%string;
     raw_reason := None;
     raw_emotion := Some "shocking"%string;
     raw_engagement_score := Some (8 # 10);
     raw_key_quotes := Some ["secret"%string];
     raw_viral_potential := Some "high"%string |}.

(** The double quote character, as a string. *)
Definition dq : string := String (ascii_of_nat 34) EmptyString.

(** A JSON answer with one highlight:
    {"highlights": [{"title": "The Secret", "emotion": "shocking",
      "engagement_score": 0.8, "key_quotes": ["secret"],
      "viral_potential": "high"}]} *)
Definition secret_json : string :=
  "{" +:+ dq +:+ "highlights" +:+ dq +:+ ": [{"
  +:+ dq +:+ "title" +:+ dq +:+ ": " +:+ dq +:+ "The Secret" +:+ dq +:+ ", "
  +:+ dq +:+ "emotion" +:+ dq +:+ ": " +:+ dq +:+ "shocking" +:+ dq +:+ ", "
  +:+ dq +:+ "engagement_score" +:+ dq +:+ ": 0.8, "
  +:+ dq +:+ "key_quotes" +:+ dq +:+ ": [" +:+ dq +:+ "secret" +:+ dq +:+ "], "
  +:+ dq +:+ "viral_potential" +:+ dq +:+ ": " +:+ dq +:+ "high" +:+ dq +:+ "}]}".

(** [json.loads] followed by [.get('highlights', [])], tabulated on the
    texts that the examples decode; anything else is taken not to decode. *)
Definition json_table (matched : string) : option (list RawHighlight) :=
  if String.eqb matched secret_json then Some [secret_raw]
  else if String.eqb matched "{}" then Some []
  else None.


Definition intro_chunk : Chunk :=
  {| ch_text := " intro you won't believe this secret nobody tells you outro";
     ch_segments := intro_segments;
     ch_start_time := 0;
     ch_end_time := 45 |}.

(** A chunk whose first, short segment holds the quote. *)
Definition wide_chunk : Chunk :=
  {| ch_text := " the secret is out and then a long talk";
     ch_segments := [ mkSegment 0 10 "the secret is out";
                      mkSegment 10 100 "and then a long talk" ];
     ch_start_time := 0;
     ch_end_time := 100 |}.



(** [x] is a double: rounding leaves it as it is. *)
Definition is_double (x : Q) : Prop := Float.round x == x.

(** The same sizes for one span of doubles. *)
Definition span_within (T : Q) (cfg : Config) (s e : Q) : Prop :=
  1 <= T ∧ T <= 2 ^ 1000
  ∧ Qabs (clip_duration_min cfg) <= T ∧ Qabs (clip_duration_max cfg) <= T
  ∧ Qabs s <= T ∧ Qabs e <= T
  ∧ is_double s ∧ is_double e.

(** What rounding may add to or take from the duration of a semantic
    window: six roundings of values of size at most [4 * T]. *)
Definition window_tolerance (T : Q) : Q := 24 * T * Float.unit_roundoff.








(** The merge scenario of the specification: a rule-based entry on [10, 40]
    with confidence 0.5 and a semantic candidate on [12, 42] with confidence
    0.8. *)
Definition rule_10_40 : Highlight :=
  {| start_time := 10; end_time := 40; text := "rule";
     confidence := Some (5 # 10); score := Some (15 # 10);
     emotions := Some ["funny"%string]; source := Some rule_based;
     title := None; emotion := None; viral_potential := None;
     reason := None; key_quotes := None |}.

Definition llm_12_42 : Highlight :=
  {| start_time := 12; end_time := 42; text := "semantic";
     confidence := Some (8 # 10); score := None; emotions := None;
     source := None; title := Some "A Title"%string;
     emotion := Some "funny"%string; viral_potential := Some "high"%string;
     reason := Some EmptyString; key_quotes := Some [] |}.

(** The overlap ratio as the specification words it: the shared duration
    divided by the duration of the shorter of the two. *)
Definition ratio_of_shorter (a b : Highlight) : Q :=
  Analyzer.overlap_duration a b
  / Num.py_min (Analyzer.duration a) (Analyzer.duration b).

(** What the filter checks when [later] is examined against an accepted
    [earlier]: the shared duration over the duration of [later] is defined
    and at most one half. *)
Definition accepts (earlier later : Highlight) : Prop :=
  ∃ ratio, Analyzer.overlap_ratio later earlier = Some ratio ∧ ratio <= 5 # 10.

(** [a] may stand before [b] in a list sorted by decreasing key. *)
Definition key_desc {A} (key : A → Q) (a b : A) : Prop := key b <= key a.

(** A short highlight inside a long one of lower confidence. *)
Definition short_inside : Highlight :=
  {| start_time := 0; end_time := 10; text := "short";
     confidence := Some (9 # 10); score := None; emotions := None;
     source := Some rule_based; title := None; emotion := None;
     viral_potential := None; reason := None; key_quotes := None |}.

Definition long_around : Highlight :=
  {| start_time := 0; end_time := 100; text := "long";
     confidence := Some (8 # 10); score := None; emotions := None;
     source := Some llm; title := None; emotion := None;
     viral_potential := None; reason := None; key_quotes := None |}.




Definition no_metadata : VideoMetadata :=
  {| vm_title := None; vm_description := None |}.

(** Every tag the hashtag tables can produce before padding. *)
Definition known_tags : list string :=
  Analyzer.base_tags ++ concat (map snd Analyzer.emotion_tags)
  ++ map snd Analyzer.topic_keywords.

(** A configuration asking for at least nine hashtags. *)
Definition nine_tags_config : Config :=
  {| emotion_weights := λ _, 1;
     keywords_boost := [];
     min_engagement_score := 6 # 10;
     clip_duration_min := 25;
     clip_duration_max := 65;
     hashtag_max_count := 10;
     hashtag_min_count := 9 |}.

(** The first scenario of the specification as a transcript. *)
Definition intro_transcript : Transcript :=
  {| tr_segments := Some intro_segments;
     tr_text := Some "intro you won't believe this secret nobody tells you outro"%string |}.

(** A transcript dict without the ['text'] key. *)
Definition no_text_transcript : Transcript :=
  {| tr_segments := Some intro_segments; tr_text := None |}.

(** Two instantaneous segments: both rule-based windows shrink to [0, 0],
    and the filter divides by a duration of zero. *)
Definition instant_transcript : Transcript :=
  {| tr_segments := Some [ mkSegment 0 0 "this is hilarious and so funny";
                           mkSegment 100 100 "what a funny joke that was" ];
     tr_text := Some "this is hilarious and so funny what a funny joke that was"%string |}.

(** No model is loaded. *)
Definition no_model : Externals :=
  {| model := None; json_highlights := json_table; random_draw := λ _, 0%nat |}.



(** The emotion categories that have a keyword in a lower-cased text, in the
    order of the keyword table. *)
Definition matched_emotions (txt : string) : list string :=
  map fst (List.filter
             (λ entry : string * list string,
                existsb (λ keyword, Text.contains keyword txt) entry.2)
             Scorer.emotion_keywords).

(** The times of a chunk are the start of its first segment and the end of
    its last one. *)
Definition chunk_spans_segments (c : Chunk) : Prop :=
  ∃ first final,
    head (ch_segments c) = Some first ∧ last (ch_segments c) = Some final
    ∧ ch_start_time c = seg_start first ∧ ch_end_time c = seg_end final.

(** A chunk of several segments stays within the character budget, up to
    the joining space. *)
Definition chunk_within_budget (c : Chunk) : Prop :=
  (length (ch_segments c) ≤ 1)%nat
  ∨ (String.length (ch_text c) ≤ LLM.chunk_size + 1)%nat.

(** What the merge may do to an accepted entry: leave it, or replace it by a
    candidate of higher confidence, marked [combined]. *)
Definition merged_from (entry entry' : Highlight) : Prop :=
  get_confidence entry <= get_confidence entry'
  ∧ (entry' = entry ∨ source entry' = Some combined).

(** * Properties *)

(** ** Numbers *)

Lemma ltb_lt a b : Num.ltb a b = true ↔ a < b.
Proof.
  unfold Num.ltb. rewrite negb_true_iff, <- not_true_iff_false, Qle_bool_iff.
  split; [apply Qnot_le_lt | apply Qlt_not_le].
Qed.

Lemma ltb_ge a b : Num.ltb a b = false ↔ b <= a.
Proof.
  unfold Num.ltb. rewrite negb_false_iff. apply Qle_bool_iff.
Qed.

Lemma leb_le a b : Num.leb a b = true ↔ a <= b.
Proof. apply Qle_bool_iff. Qed.

Lemma leb_gt a b : Num.leb a b = false ↔ b < a.
Proof.
  unfold Num.leb. rewrite <- not_true_iff_false, Qle_bool_iff.
  split; [apply Qnot_le_lt | apply Qlt_not_le].
Qed.

(** Case analysis on every comparison of the goal, leaving the order facts
    as hypotheses. *)
Ltac cmp_cases :=
  repeat match goal with
  | |- context [Num.ltb ?a ?b] =>
      let E := fresh "E" in
      destruct (Num.ltb a b) eqn:E;
      [apply ltb_lt in E | apply ltb_ge in E]
  | |- context [Num.leb ?a ?b] =>
      let E := fresh "E" in
      destruct (Num.leb a b) eqn:E;
      [apply leb_le in E | apply leb_gt in E]
  end.

(** [lra] does not read [x / 2]; this writes it as [x * (1 # 2)]. *)
Ltac halves := unfold Qdiv in *; change (/ 2) with (1 # 2) in *.

Lemma py_min_spec a b :
  (b < a ∧ Num.py_min a b = b) ∨ (a <= b ∧ Num.py_min a b = a).
Proof. unfold Num.py_min. cmp_cases; auto. Qed.

Lemma py_max_spec a b :
  (a < b ∧ Num.py_max a b = b) ∨ (b <= a ∧ Num.py_max a b = a).
Proof. unfold Num.py_max. cmp_cases; auto. Qed.

Lemma py_div_Some x y r : Num.py_div x y = Some r → ¬ y == 0 ∧ r = x / y.
Proof.
  unfold Num.py_div. destruct (Qeq_bool y 0) eqn:E; [done |].
  intros [= <-]. split; [| done]. by apply Qeq_bool_neq.
Qed.

Lemma py_div_nonzero x y : ¬ y == 0 → Num.py_div x y = Some (x / y).
Proof.
  intros Hy. unfold Num.py_div. destruct (Qeq_bool y 0) eqn:E; [| done].
  by apply Qeq_bool_eq in E.
Qed.

(** ** Float rounding *)

Lemma nearest_even_error y : Qabs (inject_Z (Float.nearest_even y) - y) <= 1 # 2.
Proof.
  unfold Float.nearest_even.
  pose proof (Qfloor_le y) as Hlo. pose proof (Qlt_floor y) as Hhi.
  rewrite inject_Z_plus in Hhi. change (inject_Z 1) with 1 in Hhi.
  apply Qabs_Qle_condition.
  destruct (Num.ltb (y - inject_Z (Qfloor y)) (1 # 2)) eqn:H1.
  - apply ltb_lt in H1. split; lra.
  - apply ltb_ge in H1.
    assert (Hup : - (1 # 2) <= inject_Z (Qfloor y + 1) - y <= 1 # 2).
    { rewrite inject_Z_plus. change (inject_Z 1) with 1. split; lra. }
    destruct (Num.ltb (1 # 2) (y - inject_Z (Qfloor y))) eqn:H2; [exact Hup |].
    apply ltb_ge in H2. destruct (Z.even (Qfloor y)); [split; lra | exact Hup].
Qed.

Lemma pow2_pos e : 0 < 2 ^ e.
Proof. apply Qpower_0_lt. reflexivity. Qed.

(** The logarithms bound a positive rational from below. *)
Lemma log2_lower (a : Q) :
  0 < a → 2 ^ (Z.log2 (Qnum a) - Z.log2 (Zpos (Qden a)) - 1) <= a.
Proof.
  intros Ha. destruct a as [n d]. cbn [Qnum Qden].
  assert (Hn : (0 < n)%Z). { unfold Qlt in Ha. simpl in Ha. lia. }
  destruct (Z.log2_spec n Hn) as [Hlo _].
  destruct (Z.log2_spec (Zpos d) (Pos2Z.is_pos d)) as [_ Hhi].
  pose proof (Z.log2_nonneg n) as Hln. pose proof (Z.log2_nonneg (Zpos d)) as Hld.
  replace (Z.log2 n - Z.log2 (Zpos d) - 1)%Z
    with (Z.log2 n - Z.succ (Z.log2 (Zpos d)))%Z by lia.
  rewrite Qpower_minus by discriminate.
  rewrite (Qmake_Qdiv n d).
  assert (Hp2 : 2 ^ Z.log2 n == inject_Z (2 ^ Z.log2 n)).
  { symmetry. apply (Zpower_Qpower 2). lia. }
  assert (Hq2 : 2 ^ Z.succ (Z.log2 (Zpos d))
                == inject_Z (2 ^ Z.succ (Z.log2 (Zpos d)))).
  { symmetry. apply (Zpower_Qpower 2). lia. }
  rewrite Hp2, Hq2.
  set (p := (2 ^ Z.log2 n)%Z) in *.
  set (q := (2 ^ Z.succ (Z.log2 (Zpos d)))%Z) in *.
  assert (Hp : (0 < p)%Z) by (unfold p; apply Z.pow_pos_nonneg; lia).
  assert (HqQ : 0 < inject_Z q) by (rewrite <- (Zlt_Qlt 0); lia).
  assert (HdQ : 0 < inject_Z (Zpos d)) by (rewrite <- (Zlt_Qlt 0); lia).
  assert (HpQ : inject_Z p <= inject_Z n) by (rewrite <- Zle_Qle; lia).
  assert (HdqQ : inject_Z (Zpos d) <= inject_Z q) by (rewrite <- Zle_Qle; lia).
  apply Qle_shift_div_l; [exact HdQ |].
  apply Qle_trans with (inject_Z p / inject_Z q * inject_Z q).
  - apply Qmult_le_l; [| exact HdqQ].
    apply Qlt_shift_div_l; [exact HqQ |]. rewrite Qmult_0_l.
    rewrite <- (Zlt_Qlt 0). lia.
  - assert (Heq : inject_Z p / inject_Z q * inject_Z q == inject_Z p) by (field; lra).
    rewrite Heq. exact HpQ.
Qed.

(** The exponent is that of a mantissa of at least 53 bits, or the least
    one. *)
Lemma ulp_exponent_spec a :
  0 < a → 2 ^ (Float.ulp_exponent a + 52) <= a ∨ Float.ulp_exponent a = Float.emin.
Proof.
  intros Ha. unfold Float.ulp_exponent, Float.prec.
  set (e := (Z.log2 (Qnum a) - Z.log2 (Zpos (Qden a)) - 53)%Z).
  assert (He : 2 ^ (e + 52) <= a).
  { replace (e + 52)%Z with (Z.log2 (Qnum a) - Z.log2 (Zpos (Qden a)) - 1)%Z
      by (unfold e; lia).
    apply log2_lower; exact Ha. }
  destruct (Num.leb (2 ^ (e + 53)) a) eqn:Hup.
  - apply leb_le in Hup.
    destruct (Z.max_spec (e + 1) Float.emin) as [[_ ->] | [_ ->]]; [right; reflexivity |].
    left. replace (e + 1 + 52)%Z with (e + 53)%Z by lia. exact Hup.
  - destruct (Z.max_spec e Float.emin) as [[_ ->] | [_ ->]];
      [right; reflexivity | left; exact He].
Qed.

(** One rounding of a value of size at most [B] errs by at most
    [B * 2 ^ -53]. *)
Lemma round_error B x :
  1 <= B → Qabs x <= B → Qabs (Float.round x - x) <= B * Float.unit_roundoff.
Proof.
  intros HB Hx. unfold Float.round, Float.unit_roundoff.
  destruct (Qeq_bool x 0) eqn:Hz.
  - apply Qeq_bool_eq in Hz.
    assert (Hzero : Qabs (0 - x) == 0) by (rewrite Hz; reflexivity).
    rewrite Hzero. lra.
  - apply Qeq_bool_neq in Hz.
    assert (Ha : 0 < Qabs x).
    { pose proof (Qabs_nonneg x). destruct (Qeq_dec (Qabs x) 0) as [H0 | H0]; [| lra].
      destruct Hz. revert H0. apply Qabs_case; intros; lra. }
    set (e := Float.ulp_exponent (Qabs x)).
    rewrite Qred_correct.
    pose proof (pow2_pos e) as Hpe.
    pose proof (nearest_even_error (x / 2 ^ e)) as Herr.
    set (m := inject_Z (Float.nearest_even (x / 2 ^ e))) in *.
    assert (Hscale : m * 2 ^ e - x == (m - x / 2 ^ e) * 2 ^ e) by (field; lra).
    rewrite Hscale, Qabs_Qmult, (Qabs_pos (2 ^ e)) by lra.
    assert (Hhalf : Qabs (m - x / 2 ^ e) * 2 ^ e <= (1 # 2) * 2 ^ e).
    { apply Qmult_le_compat_r; [exact Herr | lra]. }
    assert (Hulp : (1 # 2) * 2 ^ e <= B * (1 # 9007199254740992)); [| lra].
    destruct (ulp_exponent_spec (Qabs x) Ha) as [Hnorm | Hmin].
    + fold e in Hnorm. rewrite Qpower_plus in Hnorm by discriminate.
      change (2 ^ 52) with 4503599627370496 in Hnorm. lra.
    + fold e in Hmin. rewrite Hmin. unfold Float.emin.
      assert (Htiny : 2 ^ (-1074) <= 1 # 4503599627370496).
      { change (-1074)%Z with (-52 + -1022)%Z. rewrite Qpower_plus by discriminate.
        change (2 ^ (-52)) with (1 # 4503599627370496).
        assert (H1 : 2 ^ (-1022) <= 1).
        { apply (Qpower_le_compat_l 2 (-1022) 0); [lia | lra]. }
        pose proof (pow2_pos (-1022)). nra. }
      lra.
Qed.

(** The form used for the windows: one rounding of a value of size at most
    [4 * T] takes a sixth of the tolerance. *)
Lemma round_near T x :
  1 <= T → - (4 * T) <= x <= 4 * T →
  - window_tolerance T <= 6 * (Float.round x - x)
  ∧ 6 * (Float.round x - x) <= window_tolerance T.
Proof.
  intros HT Hx.
  assert (Herr : Qabs (Float.round x - x) <= 4 * T * Float.unit_roundoff).
  { apply round_error; [lra |]. by apply Qabs_Qle_condition. }
  apply Qabs_Qle_condition in Herr. unfold window_tolerance. split; lra.
Qed.

Lemma window_tolerance_small T :
  1 <= T → 0 <= window_tolerance T ∧ window_tolerance T <= T * (1 # 1000).
Proof.
  intros HT. unfold window_tolerance, Float.unit_roundoff. split; lra.
Qed.

(** Rounding keeps the order. *)

Lemma nearest_even_floor y :
  (Qfloor y <= Float.nearest_even y <= Qfloor y + 1)%Z.
Proof. unfold Float.nearest_even. repeat case_match; lia. Qed.

Lemma nearest_even_mono y1 y2 :
  y1 <= y2 → (Float.nearest_even y1 <= Float.nearest_even y2)%Z.
Proof.
  intros Hle. pose proof (Qfloor_resp_le _ _ Hle) as Hfloor.
  destruct (Z.eq_dec (Qfloor y1) (Qfloor y2)) as [Heq | Hne].
  - unfold Float.nearest_even. rewrite <- Heq.
    destruct (Z.even (Qfloor y1)); cmp_cases; try lia; lra.
  - pose proof (nearest_even_floor y1). pose proof (nearest_even_floor y2). lia.
Qed.

Lemma nearest_even_Z z : Float.nearest_even (inject_Z z) = z.
Proof.
  unfold Float.nearest_even. rewrite Qfloor_Z.
  assert (Hlt : inject_Z z - inject_Z z < 1 # 2) by lra.
  apply ltb_lt in Hlt. by rewrite Hlt.
Qed.

Lemma pow2_le a b : (a <= b)%Z → 2 ^ a <= 2 ^ b.
Proof. intros Hab. apply Qpower_le_compat_l; [exact Hab | lra]. Qed.

Lemma pow2_add a b : 2 ^ (a + b) == 2 ^ a * 2 ^ b.
Proof. apply Qpower_plus. discriminate. Qed.

(** The logarithms bound a positive rational from above. *)
Lemma log2_upper (a : Q) :
  0 < a → a < 2 ^ (Z.log2 (Qnum a) - Z.log2 (Zpos (Qden a)) + 1).
Proof.
  intros Ha. destruct a as [n d]. cbn [Qnum Qden].
  assert (Hn : (0 < n)%Z). { unfold Qlt in Ha. simpl in Ha. lia. }
  destruct (Z.log2_spec n Hn) as [_ Hhi].
  destruct (Z.log2_spec (Zpos d) (Pos2Z.is_pos d)) as [Hlo _].
  pose proof (Z.log2_nonneg n) as Hln. pose proof (Z.log2_nonneg (Zpos d)) as Hld.
  replace (Z.log2 n - Z.log2 (Zpos d) + 1)%Z
    with (Z.succ (Z.log2 n) - Z.log2 (Zpos d))%Z by lia.
  rewrite Qpower_minus by discriminate.
  rewrite (Qmake_Qdiv n d).
  assert (Hp2 : 2 ^ Z.succ (Z.log2 n) == inject_Z (2 ^ Z.succ (Z.log2 n))).
  { symmetry. apply (Zpower_Qpower 2). lia. }
  assert (Hq2 : 2 ^ Z.log2 (Zpos d) == inject_Z (2 ^ Z.log2 (Zpos d))).
  { symmetry. apply (Zpower_Qpower 2). lia. }
  rewrite Hp2, Hq2.
  set (p := (2 ^ Z.succ (Z.log2 n))%Z) in *.
  set (q := (2 ^ Z.log2 (Zpos d))%Z) in *.
  assert (Hq : (0 < q)%Z) by (unfold q; apply Z.pow_pos_nonneg; lia).
  assert (HqQ : 0 < inject_Z q) by (rewrite <- (Zlt_Qlt 0); lia).
  assert (HdQ : 0 < inject_Z (Zpos d)) by (rewrite <- (Zlt_Qlt 0); lia).
  assert (HpQ : inject_Z n < inject_Z p) by (rewrite <- Zlt_Qlt; lia).
  assert (HdqQ : inject_Z q <= inject_Z (Zpos d)) by (rewrite <- Zle_Qle; lia).
  assert (HnQ : 0 < inject_Z n) by (rewrite <- (Zlt_Qlt 0); lia).
  apply Qlt_shift_div_r; [exact HdQ |].
  apply Qlt_le_trans with (inject_Z p / inject_Z q * inject_Z q).
  - assert (Heq : inject_Z p / inject_Z q * inject_Z q == inject_Z p) by (field; lra).
    rewrite Heq. exact HpQ.
  - apply Qmult_le_l; [| exact HdqQ].
    apply Qlt_shift_div_l; [exact HqQ |]. rewrite Qmult_0_l. lra.
Qed.

(** The mantissa has at most 53 bits. *)
Lemma ulp_exponent_upper a :
  0 < a → a < 2 ^ (Float.ulp_exponent a + 53) ∧ (Float.emin <= Float.ulp_exponent a)%Z.
Proof.
  intros Ha. unfold Float.ulp_exponent, Float.prec.
  set (e := (Z.log2 (Qnum a) - Z.log2 (Zpos (Qden a)) - 53)%Z).
  assert (He : a < 2 ^ (e + 54)).
  { replace (e + 54)%Z with (Z.log2 (Qnum a) - Z.log2 (Zpos (Qden a)) + 1)%Z
      by (unfold e; lia).
    apply log2_upper; exact Ha. }
  split; [| apply Z.le_max_r].
  destruct (Num.leb (2 ^ (e + 53)) a) eqn:Hup.
  - eapply Qlt_le_trans; [exact He |]. apply pow2_le. lia.
  - apply leb_gt in Hup. eapply Qlt_le_trans; [exact Hup |]. apply pow2_le. lia.
Qed.

(** The rounding of a value that is not zero, with its exponent. *)
Lemma round_nonzero x :
  ¬ x == 0 →
  Float.round x
  == inject_Z (Float.nearest_even (x / 2 ^ Float.ulp_exponent (Qabs x)))
     * 2 ^ Float.ulp_exponent (Qabs x).
Proof.
  intros Hx. unfold Float.round.
  destruct (Qeq_bool x 0) eqn:Hz; [by apply Qeq_bool_eq in Hz |].
  apply Qred_correct.
Qed.

Lemma round_zero x : x == 0 → Float.round x = 0.
Proof.
  intros Hx. unfold Float.round.
  destruct (Qeq_bool x 0) eqn:Hz; [done |]. by apply Qeq_bool_neq in Hz.
Qed.

(** A positive value rounds into the closure of its binade. *)
Lemma round_positive x :
  0 < x →
  let e := Float.ulp_exponent (Qabs x) in
  0 <= Float.round x ∧ Float.round x <= 2 ^ (e + 53)
  ∧ (2 ^ (e + 52) <= x → 2 ^ (e + 52) <= Float.round x).
Proof.
  intros Hx e. rewrite round_nonzero by lra. fold e.
  assert (Habs : Qabs x == x) by (apply Qabs_pos; lra).
  assert (Ha : 0 < Qabs x) by lra.
  destruct (ulp_exponent_upper (Qabs x) Ha) as [Hup _]. fold e in Hup.
  pose proof (pow2_pos e) as Hpe.
  rewrite !pow2_add.
  change (2 ^ 53) with (inject_Z 9007199254740992).
  change (2 ^ 52) with (inject_Z 4503599627370496).
  rewrite pow2_add in Hup. change (2 ^ 53) with (inject_Z 9007199254740992) in Hup.
  set (y := x / 2 ^ e).
  assert (Hy : x == y * 2 ^ e) by (unfold y; field; lra).
  assert (Hy0 : inject_Z 0 <= y).
  { change (inject_Z 0) with 0. unfold y. apply Qle_shift_div_l; [exact Hpe | lra]. }
  assert (Hy53 : y <= inject_Z 9007199254740992).
  { unfold y. apply Qle_shift_div_r; [exact Hpe |]. rewrite Habs in Hup.
    rewrite Qmult_comm. lra. }
  pose proof (nearest_even_mono _ _ Hy0) as Hm0. rewrite nearest_even_Z in Hm0.
  pose proof (nearest_even_mono _ _ Hy53) as Hm53. rewrite nearest_even_Z in Hm53.
  rewrite Zle_Qle in Hm0. rewrite Zle_Qle in Hm53.
  set (m := inject_Z (Float.nearest_even y)) in *.
  split; [| split].
  - change (inject_Z 0) with 0 in Hm0. nra.
  - rewrite (Qmult_comm (2 ^ e)). apply Qmult_le_compat_r; lra.
  - intros Hnorm.
    assert (Hy52 : inject_Z 4503599627370496 <= y).
    { unfold y. apply Qle_shift_div_l; [exact Hpe |]. rewrite Qmult_comm. exact Hnorm. }
    pose proof (nearest_even_mono _ _ Hy52) as Hm52. rewrite nearest_even_Z in Hm52.
    rewrite Zle_Qle in Hm52. fold m in Hm52.
    rewrite (Qmult_comm (2 ^ e)). apply Qmult_le_compat_r; lra.
Qed.

Lemma round_negative x :
  x < 0 →
  let e := Float.ulp_exponent (Qabs x) in
  Float.round x <= 0 ∧ - 2 ^ (e + 53) <= Float.round x
  ∧ (2 ^ (e + 52) <= - x → Float.round x <= - 2 ^ (e + 52)).
Proof.
  intros Hx e. rewrite round_nonzero by lra. fold e.
  assert (Habs : Qabs x == - x) by (apply Qabs_neg; lra).
  assert (Ha : 0 < Qabs x) by lra.
  destruct (ulp_exponent_upper (Qabs x) Ha) as [Hup _]. fold e in Hup.
  pose proof (pow2_pos e) as Hpe.
  rewrite !pow2_add.
  change (2 ^ 53) with (inject_Z 9007199254740992).
  change (2 ^ 52) with (inject_Z 4503599627370496).
  rewrite pow2_add in Hup. change (2 ^ 53) with (inject_Z 9007199254740992) in Hup.
  set (y := x / 2 ^ e).
  assert (Hy : x == y * 2 ^ e) by (unfold y; field; lra).
  assert (Hy0 : y <= inject_Z 0).
  { change (inject_Z 0) with 0. unfold y. apply Qle_shift_div_r; [exact Hpe | lra]. }
  assert (Hy53 : inject_Z (-9007199254740992) <= y).
  { unfold y. apply Qle_shift_div_l; [exact Hpe |]. rewrite Habs in Hup.
    change (inject_Z (-9007199254740992)) with (- inject_Z 9007199254740992).
    lra. }
  pose proof (nearest_even_mono _ _ Hy0) as Hm0. rewrite nearest_even_Z in Hm0.
  pose proof (nearest_even_mono _ _ Hy53) as Hm53. rewrite nearest_even_Z in Hm53.
  rewrite Zle_Qle in Hm0. rewrite Zle_Qle in Hm53.
  change (inject_Z (-9007199254740992)) with (- inject_Z 9007199254740992) in Hm53.
  set (m := inject_Z (Float.nearest_even y)) in *.
  split; [| split].
  - change (inject_Z 0) with 0 in Hm0. nra.
  - assert (Hprod : (- inject_Z 9007199254740992) * 2 ^ e <= m * 2 ^ e)
      by (apply Qmult_le_compat_r; lra).
    lra.
  - intros Hnorm.
    assert (Hy52 : y <= inject_Z (-4503599627370496)).
    { unfold y. apply Qle_shift_div_r; [exact Hpe |].
      change (inject_Z (-4503599627370496)) with (- inject_Z 4503599627370496).
      lra. }
    pose proof (nearest_even_mono _ _ Hy52) as Hm52. rewrite nearest_even_Z in Hm52.
    rewrite Zle_Qle in Hm52. fold m in Hm52.
    change (inject_Z (-4503599627370496)) with (- inject_Z 4503599627370496) in Hm52.
    assert (Hprod : m * 2 ^ e <= (- inject_Z 4503599627370496) * 2 ^ e)
      by (apply Qmult_le_compat_r; lra).
    lra.
Qed.

(** Same exponent: the mantissas are in order. *)
Lemma round_same_exponent x y :
  ¬ x == 0 → ¬ y == 0 → x <= y →
  Float.ulp_exponent (Qabs x) = Float.ulp_exponent (Qabs y) →
  Float.round x <= Float.round y.
Proof.
  intros Hx Hy Hle He. rewrite (round_nonzero x Hx), (round_nonzero y Hy), He.
  set (e := Float.ulp_exponent (Qabs y)).
  pose proof (pow2_pos e) as Hpe.
  apply Qmult_le_compat_r; [| lra].
  rewrite <- Zle_Qle. apply nearest_even_mono.
  apply Qmult_le_compat_r; [exact Hle |]. apply Qlt_le_weak, Qinv_lt_0_compat, Hpe.
Qed.

Lemma round_mono x y : x <= y → Float.round x <= Float.round y.
Proof.
  intros Hle.
  destruct (Q_dec x 0) as [[Hx | Hx] | Hx]; destruct (Q_dec y 0) as [[Hy | Hy] | Hy];
    try lra.
  - (* both negative *)
    pose proof (round_negative x Hx) as (_ & Hxlo & Hxnorm).
    pose proof (round_negative y Hy) as (_ & Hylo & Hynorm).
    cbv zeta in *.
    assert (Hax : 0 < Qabs x) by (rewrite Qabs_neg; lra).
    assert (Hay : 0 < Qabs y) by (rewrite Qabs_neg; lra).
    pose proof (ulp_exponent_spec _ Hax) as Hxn.
    pose proof (ulp_exponent_spec _ Hay) as Hyn.
    destruct (ulp_exponent_upper _ Hax) as [Hxup Hxmin].
    destruct (ulp_exponent_upper _ Hay) as [Hyup Hymin].
    assert (Hxabs : Qabs x == - x) by (apply Qabs_neg; lra).
    assert (Hyabs : Qabs y == - y) by (apply Qabs_neg; lra).
    set (ex := Float.ulp_exponent (Qabs x)) in *.
    set (ey := Float.ulp_exponent (Qabs y)) in *.
    destruct (Z.lt_trichotomy ex ey) as [Hlt | [Heq | Hgt]].
    + destruct Hyn as [Hyn | Hyn]; [| lia].
      pose proof (pow2_le (ex + 53) (ey + 52) ltac:(lia)). lra.
    + apply round_same_exponent; [lra | lra | done | done].
    + destruct Hxn as [Hxn | Hxn]; [| lia].
      pose proof (pow2_le (ey + 53) (ex + 52) ltac:(lia)).
      specialize (Hxnorm ltac:(lra)). lra.
  - pose proof (round_negative x Hx) as (Hx0 & _).
    pose proof (round_positive y Hy) as (Hy0 & _). cbv zeta in *. lra.
  - pose proof (round_negative x Hx) as (Hx0 & _). cbv zeta in Hx0.
    rewrite (round_zero y Hy). exact Hx0.
  - (* both positive *)
    pose proof (round_positive x Hx) as (_ & Hxhi & Hxnorm).
    pose proof (round_positive y Hy) as (_ & Hyhi & Hynorm).
    cbv zeta in *.
    assert (Hax : 0 < Qabs x) by (rewrite Qabs_pos; lra).
    assert (Hay : 0 < Qabs y) by (rewrite Qabs_pos; lra).
    pose proof (ulp_exponent_spec _ Hax) as Hxn.
    pose proof (ulp_exponent_spec _ Hay) as Hyn.
    destruct (ulp_exponent_upper _ Hax) as [Hxup Hxmin].
    destruct (ulp_exponent_upper _ Hay) as [Hyup Hymin].
    assert (Hxabs : Qabs x == x) by (apply Qabs_pos; lra).
    assert (Hyabs : Qabs y == y) by (apply Qabs_pos; lra).
    set (ex := Float.ulp_exponent (Qabs x)) in *.
    set (ey := Float.ulp_exponent (Qabs y)) in *.
    destruct (Z.lt_trichotomy ex ey) as [Hlt | [Heq | Hgt]].
    + destruct Hyn as [Hyn | Hyn]; [| lia].
      pose proof (pow2_le (ex + 53) (ey + 52) ltac:(lia)).
      specialize (Hynorm ltac:(lra)). lra.
    + apply round_same_exponent; [lra | lra | done | done].
    + destruct Hxn as [Hxn | Hxn]; [| lia].
      pose proof (pow2_le (ey + 53) (ex + 52) ltac:(lia)). lra.
  - rewrite (round_zero x Hx).
    pose proof (round_positive y Hy) as (Hy0 & _). exact Hy0.
  - rewrite (round_zero x Hx), (round_zero y Hy). lra.
Qed.

Lemma round_nonneg x : 0 <= x → 0 <= Float.round x.
Proof.
  intros Hx. pose proof (round_mono 0 x Hx) as Hle.
  by rewrite (round_zero 0) in Hle.
Qed.

(** ** Segment scorer *)

Lemma count_if_none {A} (p : A → bool) (xs : list A) :
  forallb (λ x, negb (p x)) xs = true → Scorer.count_if p xs = 0%nat.
Proof.
  unfold Scorer.count_if. induction xs as [| x xs IH]; simpl; [done |].
  intros [Hx Hxs]%andb_prop. apply negb_true_iff in Hx. rewrite Hx. auto.
Qed.

Lemma emotion_fold_none cfg txt st entries :
  forallb (λ entry : string * list string,
             forallb (λ keyword, negb (Text.contains keyword txt)) entry.2)
          entries = true →
  foldl (Scorer.emotion_step cfg txt) st entries = st.
Proof.
  revert st. induction entries as [| [emo keywords] entries IH]; intros st; simpl; [done |].
  intros [Hk Hrest]%andb_prop. simpl in Hk.
  rewrite (count_if_none _ _ Hk). simpl. by apply IH.
Qed.

Lemma raw_score_none cfg txt :
  matches_nothing cfg txt = true → Scorer.raw_score cfg txt = (0 + 0 * 2 + 0 * (15 # 10), []).
Proof.
  unfold matches_nothing. intros [[He Hh]%andb_prop Hb]%andb_prop.
  unfold Scorer.raw_score, Scorer.hook_score, Scorer.boost_score.
  rewrite (emotion_fold_none _ _ _ _ He).
  by rewrite (count_if_none _ _ Hh), (count_if_none _ _ Hb).
Qed.

Lemma length_penalty_zero txt s : s == 0 → Scorer.length_penalty txt s == 0.
Proof.
  intros Hs. unfold Scorer.length_penalty.
  repeat case_match; lra.
Qed.

Lemma position_bonus_zero i n s : s == 0 → Scorer.position_bonus i n s == 0.
Proof.
  intros Hs. unfold Scorer.position_bonus.
  repeat case_match; lra.
Qed.

(** C9.  A segment whose lower-cased text contains no emotion keyword,
    matches no hook pattern and contains no boost keyword gets the score 0:
    before the word-count penalty, after it, and in the scored segment that
    [_score_segments] returns for it (after the positional scaling). *)
Theorem score_zero_without_match cfg segments i segment :
  segments !! i = Some segment →
  matches_nothing cfg (Text.lower (seg_text segment)) = true →
  let txt := Text.lower (seg_text segment) in
  (Scorer.raw_score cfg txt).1 == 0
  ∧ Scorer.length_penalty txt (Scorer.raw_score cfg txt).1 == 0
  ∧ ∃ scored, Scorer._score_segments cfg segments !! i = Some scored
      ∧ sc_text scored = seg_text segment
      ∧ sc_score scored == 0.
Proof.
  intros Hi Hnone txt.
  assert (Hraw : (Scorer.raw_score cfg txt).1 == 0).
  { unfold txt. rewrite (raw_score_none _ _ Hnone). simpl. lra. }
  split; [done |]. split; [by apply length_penalty_zero |].
  unfold Scorer._score_segments. rewrite list_lookup_imap, Hi. simpl.
  eexists. split; [done |].
  unfold Scorer.score_segment. fold txt.
  destruct (Scorer.raw_score cfg txt) as [s emos]. simpl in *.
  split; [done |]. by apply position_bonus_zero, length_penalty_zero.
Qed.

Lemma score_zero_without_match_witness :
  let segment := mkSegment 40 45 "outro" in
  (Scorer.raw_score default_config (Text.lower (seg_text segment))).1 == 0
  ∧ Scorer.length_penalty (Text.lower (seg_text segment))
      (Scorer.raw_score default_config (Text.lower (seg_text segment))).1 == 0
  ∧ ∃ scored, Scorer._score_segments default_config intro_segments !! 2%nat = Some scored
      ∧ sc_text scored = seg_text segment
      ∧ sc_score scored == 0.
Proof.
  apply (score_zero_without_match default_config intro_segments 2); reflexivity.
Defined.

(** ** Transcript chunking *)

Lemma append_cons x (a b : string) : String x a +:+ b = String x (a +:+ b).
Proof. reflexivity. Qed.

Lemma append_assoc (a b c : string) : (a +:+ b) +:+ c = a +:+ b +:+ c.
Proof.
  induction a as [| x a IH]; [done |]. by rewrite !append_cons, IH.
Qed.

Lemma append_empty_r (a : string) : a +:+ EmptyString = a.
Proof.
  induction a as [| x a IH]; [done |]. by rewrite append_cons, IH.
Qed.

Lemma nonempty_append a c b : LLM.nonempty (a +:+ String c b) = true.
Proof. by destruct a. Qed.

Lemma adjacent_snoc {A} (R : A → A → Prop) l a b :
  adjacent R (l ++ [a]) → R a b → adjacent R ((l ++ [a]) ++ [b]).
Proof.
  induction l as [| x l IH]; simpl; [done |].
  destruct l as [| y l]; simpl in *; [by intros [] |].
  intros [Hxy Hrest] Hab. split; [done |]. by apply IH.
Qed.

Lemma adjacent_replace_last {A} (R : A → A → Prop) l a a' :
  adjacent R (l ++ [a]) → (∀ x, R x a → R x a') → adjacent R (l ++ [a']).
Proof.
  intros Hadj Himp. induction l as [| x l IH]; simpl; [done |].
  destruct l as [| y l]; simpl in *; [split; [apply Himp |]; tauto |].
  destruct Hadj as [Hxy Hrest]. split; [done |]. by apply IH.
Qed.


(** What one round of the chunking loop keeps: the segments handed out so
    far, the truthiness of the current text, and the overlap carried by the
    text of each chunk. *)
Lemma split_step_inv chunks current segment :
  (LLM.nonempty (ch_text current) = false → ch_segments current = []) →
  adjacent carries_overlap (chunks ++ [current]) →
  let '(chunks', current') := LLM.split_step (chunks, current) segment in
  concat (map ch_segments chunks') ++ ch_segments current'
    = (concat (map ch_segments chunks) ++ ch_segments current) ++ [segment]
  ∧ LLM.nonempty (ch_text current') = true
  ∧ adjacent carries_overlap (chunks' ++ [current']).
Proof.
  intros Hempty Hadj. unfold LLM.split_step.
  destruct (_ && _) eqn:Hfull; simpl.
  - split; [| split].
    + rewrite map_app, concat_app. simpl. by rewrite app_nil_r.
    + apply nonempty_append.
    + apply adjacent_snoc.
      * apply (adjacent_replace_last _ _ current); [done |].
        intros x (s & o & t & Hs & Ht). by exists s, o, t.
      * exists segment, [], EmptyString. simpl. split; [done |].
        by rewrite append_empty_r.
  - split; [| split].
    + by rewrite !app_assoc.
    + apply nonempty_append.
    + apply (adjacent_replace_last _ _ current); [done |].
      intros x (s & o & t & Hs & Ht).
      exists s, (o ++ [segment]), (t +:+ " " +:+ seg_text segment). simpl.
      rewrite Hs, Ht. split; [done |]. by rewrite !append_assoc.
Qed.

Lemma split_fold_inv segments chunks current :
  (LLM.nonempty (ch_text current) = false → ch_segments current = []) →
  adjacent carries_overlap (chunks ++ [current]) →
  let '(chunks', current') := foldl LLM.split_step (chunks, current) segments in
  concat (map ch_segments chunks') ++ ch_segments current'
    = (concat (map ch_segments chunks) ++ ch_segments current) ++ segments
  ∧ (LLM.nonempty (ch_text current') = false → ch_segments current' = [])
  ∧ adjacent carries_overlap (chunks' ++ [current']).
Proof.
  revert chunks current.
  induction segments as [| segment segments IH]; intros chunks current Hempty Hadj;
    cbn [foldl].
  - by rewrite app_nil_r.
  - pose proof (split_step_inv chunks current segment Hempty Hadj) as Hstep.
    destruct (LLM.split_step (chunks, current) segment) as [chunks1 current1].
    destruct Hstep as (Hsegs & Htext & Hadj1).
    specialize (IH chunks1 current1).
    destruct (foldl LLM.split_step (chunks1, current1) segments) as [chunks' current'].
    simpl in IH |- *.
    destruct IH as (Hsegs' & Hempty' & Hadj'); [congruence | done |].
    split; [| done]. rewrite Hsegs', Hsegs. by rewrite <- !app_assoc.
Qed.

(** The chunks used in the examples are chunks of [_split_transcript]. *)
Example split_intro_segments :
  LLM._split_transcript EmptyString intro_segments = [intro_chunk]
  ∧ LLM._split_transcript EmptyString (ch_segments wide_chunk) = [wide_chunk].
Proof. split; vm_compute; reflexivity. Qed.


(** ** Rule-based windows: the three loops of [_combine_analyses] *)

Lemma span_Some original s e a b :
  original !! s = Some a → original !! e = Some b →
  Analyzer.span original s e = Some (seg_end b - seg_start a).
Proof. intros Hs He. unfold Analyzer.span. by rewrite He, Hs. Qed.

(** The forward loop returns: it stops inside the list, either long enough
    or at the last segment; the tracked duration stays that of the window. *)
Lemma extend_forward_spec original min_duration s a :
  original !! s = Some a →
  ∀ remaining e t b,
    (e + remaining = length original - 1)%nat →
    original !! e = Some b →
    ∃ e' t' b',
      Analyzer.extend_forward original min_duration s remaining e t = Some (e', t')
      ∧ (e ≤ e')%nat ∧ original !! e' = Some b'
      ∧ (min_duration <= t' ∨ e' = (length original - 1)%nat)
      ∧ (t == seg_end b - seg_start a → t' == seg_end b' - seg_start a).
Proof.
  intros Hs. induction remaining as [| remaining IH]; intros e t b Hlen He; simpl.
  - exists e, t, b. repeat split; auto with lia.
  - destruct (Num.ltb t min_duration) eqn:Hshort.
    + destruct (lookup_lt_is_Some_2 original (S e)) as [b1 Hb1]; [lia |].
      rewrite (span_Some _ _ _ _ _ Hs Hb1). simpl.
      destruct (IH (S e) (seg_end b1 - seg_start a) b1)
        as (e' & t' & b' & Hrun & Hle & Hb' & Hstop & Ht'); [lia | done |].
      exists e', t', b'. repeat split; auto with lia.
      intros _. by apply Ht'.
    + apply ltb_ge in Hshort. exists e, t, b. repeat split; auto.
Qed.

(** The backward loop returns, either long enough or at the first segment,
    and leaves a window that is long enough as it is. *)
Lemma extend_backward_spec original min_duration e b :
  original !! e = Some b →
  ∀ s t a,
    original !! s = Some a →
    ∃ s' t' a',
      Analyzer.extend_backward original min_duration e s t = Some (s', t')
      ∧ (s' ≤ s)%nat ∧ original !! s' = Some a'
      ∧ (min_duration <= t' ∨ s' = 0%nat)
      ∧ (min_duration <= t → s' = s)
      ∧ (t == seg_end b - seg_start a → t' == seg_end b - seg_start a').
Proof.
  intros He. induction s as [| s IH]; intros t a Hs; simpl.
  - exists 0%nat, t, a. repeat split; auto.
  - destruct (Num.ltb t min_duration) eqn:Hshort.
    + apply ltb_lt in Hshort.
      destruct (lookup_lt_is_Some_2 original s) as [a1 Ha1];
        [apply lookup_lt_Some in Hs; lia |].
      rewrite (span_Some _ _ _ _ _ Ha1 He). simpl.
      destruct (IH (seg_end b - seg_start a1) a1)
        as (s' & t' & a' & Hrun & Hle & Ha' & Hstop & _ & Ht'); [done |].
      exists s', t', a'. repeat split; auto.
      * intros Hlong. lra.
      * intros _. by apply Ht'.
    + apply ltb_ge in Hshort. exists (S s), t, a. repeat split; auto.
Qed.

(** The trimming loop returns, either short enough or down to one segment;
    when it has dropped a segment, the window with the next segment added
    exceeds the maximum. *)
Lemma trim_spec original max_duration s a :
  original !! s = Some a →
  ∀ e t b,
    original !! e = Some b → (s ≤ e)%nat →
    ∃ e' t' b',
      Analyzer.trim original max_duration s e t = Some (e', t')
      ∧ (s ≤ e' ≤ e)%nat ∧ original !! e' = Some b'
      ∧ (t' <= max_duration ∨ e' = s)
      ∧ (t == seg_end b - seg_start a →
         t' == seg_end b' - seg_start a
         ∧ (e' = e
            ∨ ∃ next, original !! S e' = Some next
                      ∧ max_duration < seg_end next - seg_start a)).
Proof.
  intros Hs. induction e as [| e IH]; intros t b He Hse; simpl.
  - exists 0%nat, t, b. repeat split; auto with lia.
  - destruct (Num.ltb max_duration t) eqn:Hlong; simpl.
    + apply ltb_lt in Hlong. destruct (s <? S e)%nat eqn:Hlt.
      * apply Nat.ltb_lt in Hlt.
        destruct (lookup_lt_is_Some_2 original e) as [b1 Hb1];
          [apply lookup_lt_Some in He; lia |].
        rewrite (span_Some _ _ _ _ _ Hs Hb1). simpl.
        destruct (IH (seg_end b1 - seg_start a) b1)
          as (e' & t' & b' & Hrun & Hle & Hb' & Hstop & Ht'); [done | lia |].
        destruct Ht' as [Ht' Hcut]; [reflexivity |].
        exists e', t', b'. repeat split; auto with lia.
        destruct Hcut as [-> | Hcut]; [| by right].
        right. exists b. split; [done | lra].
      * apply Nat.ltb_ge in Hlt. exists (S e), t, b.
        repeat split; auto with lia.
    + apply ltb_ge in Hlong. exists (S e), t, b. repeat split; auto with lia.
Qed.

(** The window chosen for a scored segment whose index is in the list: the
    loops return a window of the list, and when the segment's duration is
    that of the indexed segment the window obeys the duration limits up to
    the granularity of the segments. *)
Lemma extend_segment_spec cfg original segment a0 :
  original !! segment_index segment = Some a0 →
  ∃ s e t a b,
    Analyzer.extend_segment cfg original segment = Some (s, e, t)
    ∧ (s ≤ e)%nat ∧ original !! s = Some a ∧ original !! e = Some b
    ∧ (sc_duration segment == seg_end a0 - seg_start a0 →
       (seg_end b - seg_start a <= clip_duration_max cfg ∨ e = s)
       ∧ (clip_duration_min cfg <= seg_end b - seg_start a
          ∨ (s = 0%nat ∧ e = (length original - 1)%nat)
          ∨ ∃ next, original !! S e = Some next
                    ∧ clip_duration_max cfg < seg_end next - seg_start a)).
Proof.
  intros Hidx. unfold Analyzer.extend_segment.
  pose proof (lookup_lt_Some _ _ _ Hidx) as Hlt.
  destruct (extend_forward_spec original (clip_duration_min cfg) _ _ Hidx
              (length original - 1 - segment_index segment) (segment_index segment)
              (sc_duration segment) a0)
    as (e1 & t1 & b1 & -> & Hle1 & Hb1 & Hstop1 & Ht1); [lia | done |].
  simpl.
  destruct (extend_backward_spec original (clip_duration_min cfg) e1 b1 Hb1
              (segment_index segment) t1 a0 Hidx)
    as (s2 & t2 & a2 & -> & Hle2 & Ha2 & Hstop2 & Hsame2 & Ht2).
  simpl.
  destruct (trim_spec original (clip_duration_max cfg) s2 a2 Ha2 e1 t2 b1 Hb1)
    as (e3 & t3 & b3 & -> & Hle3 & Hb3 & Hstop3 & Ht3); [lia |].
  simpl. exists s2, e3, t3, a2, b3. split; [done |].
  split; [lia |]. split; [done |]. split; [done |].
  intros Hdur. specialize (Ht1 Hdur). specialize (Ht2 Ht1).
  destruct (Ht3 Ht2) as [Ht3' Hcut3]. split.
  - destruct Hstop3 as [Hmax | ->]; [left; lra | by right].
  - destruct Hcut3 as [-> | Hcut]; [| by right; right].
    assert (b3 = b1) as -> by congruence.
    destruct Hstop2 as [Hmin | ->]; [left; lra |].
    destruct Hstop1 as [Hmin | ->]; [| by right; left].
    specialize (Hsame2 Hmin). rewrite <- Hsame2 in Hidx.
    assert (a2 = a0) as -> by congruence. left. lra.
Qed.

(** ** Rule-based candidates *)

Lemma rule_based_highlight_spec cfg original segment a0 :
  original !! segment_index segment = Some a0 →
  ∃ s e a b h,
    Analyzer.rule_based_highlight cfg original segment = Some h
    ∧ (s ≤ e)%nat ∧ original !! s = Some a ∧ original !! e = Some b
    ∧ start_time h = seg_start a ∧ end_time h = seg_end b
    ∧ confidence h = Some (Num.py_min (sc_score segment / 3) 1)
    ∧ source h = Some rule_based
    ∧ score h = Some (sc_score segment)
    ∧ (sc_duration segment == seg_end a0 - seg_start a0 →
       (seg_end b - seg_start a <= clip_duration_max cfg ∨ e = s)
       ∧ (clip_duration_min cfg <= seg_end b - seg_start a
          ∨ (s = 0%nat ∧ e = (length original - 1)%nat)
          ∨ ∃ next, original !! S e = Some next
                    ∧ clip_duration_max cfg < seg_end next - seg_start a)).
Proof.
  intros Hidx. unfold Analyzer.rule_based_highlight.
  destruct (extend_segment_spec cfg original segment a0 Hidx)
    as (s & e & t & a & b & -> & Hse & Ha & Hb & Hbounds).
  simpl. rewrite Ha, Hb. simpl.
  eexists s, e, a, b, _. split; [done |]. simpl.
  repeat (split; [done |]). exact Hbounds.
Qed.

(** C6.  In the merge step the scored segments whose score is at least the
    configured minimum, and only those, become candidates, one each and in
    order, with confidence [min(score / 3.0, 1.0)] and source [rule_based]
    (here for scored segments whose index is an index of the segment
    list, as the scorer produces them). *)
Theorem rule_based_conversion cfg scored original :
  Forall (λ s, (segment_index s < length original)%nat) scored →
  ∃ candidates,
    Analyzer.rule_based_highlights cfg scored original = Some candidates
    ∧ Forall2 (λ s h, confidence h = Some (Num.py_min (sc_score s / 3) 1)
                      ∧ source h = Some rule_based
                      ∧ score h = Some (sc_score s))
        (List.filter (λ s, Qle_bool (min_engagement_score cfg) (sc_score s)) scored)
        candidates.
Proof.
  unfold Analyzer.rule_based_highlights.
  change (Analyzer.reaches_min_score cfg)
    with (λ s, Qle_bool (min_engagement_score cfg) (sc_score s)).
  induction 1 as [| s scored Hs _ IH]; simpl.
  - exists []. split; [done | constructor].
  - destruct IH as (candidates & Hrun & Hall).
    destruct (Qle_bool (min_engagement_score cfg) (sc_score s)); [| by exists candidates].
    destruct (lookup_lt_is_Some_2 original _ Hs) as [a0 Ha0].
    destruct (rule_based_highlight_spec cfg original s a0 Ha0)
      as (? & ? & ? & ? & h & Hh & _ & _ & _ & _ & _ & Hc & Hsrc & Hsc & _).
    exists (h :: candidates). split.
    + simpl. rewrite Hh. simpl. by rewrite Hrun.
    + by constructor.
Qed.

Lemma rule_based_conversion_witness :
  ∃ candidates,
    Analyzer.rule_based_highlights default_config
      (Scorer._score_segments default_config intro_segments) intro_segments
    = Some candidates
    ∧ Forall2 (λ s h, confidence h = Some (Num.py_min (sc_score s / 3) 1)
                      ∧ source h = Some rule_based
                      ∧ score h = Some (sc_score s))
        (List.filter (λ s, Qle_bool (min_engagement_score default_config) (sc_score s))
           (Scorer._score_segments default_config intro_segments))
        candidates.
Proof.
  apply (rule_based_conversion default_config
           (Scorer._score_segments default_config intro_segments) intro_segments).
  vm_compute. repeat constructor.
Defined.

(** ** Matching quotes to segments *)

Section SortStable.
Context {A : Type} (before : A → A → bool).

Lemma insert_stable_Forall (P : A → Prop) x l :
  P x → Forall P l → Forall P (insert_stable before x l).
Proof.
  intros Hx. induction 1 as [| y l Hy Hl IH]; simpl.
  - by constructor.
  - destruct (before y x); repeat constructor; auto.
Qed.

Lemma sort_stable_Forall (P : A → Prop) l :
  Forall P l → Forall P (sort_stable before l).
Proof.
  unfold sort_stable. induction 1 as [| x l Hx _ IH]; simpl; [constructor |].
  by apply insert_stable_Forall.
Qed.

Lemma insert_stable_length x l :
  length (insert_stable before x l) = S (length l).
Proof.
  induction l as [| y l IH]; simpl; [done |].
  destruct (before y x); simpl; by rewrite ?IH.
Qed.

Lemma sort_stable_length l : length (sort_stable before l) = length l.
Proof.
  unfold sort_stable. induction l as [| x l IH]; simpl; [done |].
  by rewrite insert_stable_length, IH.
Qed.
End SortStable.

Lemma collect_inner_spec quote segments matching :
  let inner := foldl (λ matching segment,
                        if LLM.quote_matches quote segment
                           && negb (LLM.segment_in segment matching)
                        then matching ++ [segment] else matching) in
  (Forall (λ s, s ∈ segments) matching → Forall (λ s, s ∈ segments) (inner matching segments))
  ∧ (matching ≠ [] → inner matching segments ≠ [])
  ∧ (∀ s, s ∈ segments → LLM.quote_matches quote s = true →
          inner matching segments ≠ []).
Proof.
  intros inner.
  assert (Hgrow : ∀ segs acc, acc ≠ [] → inner acc segs ≠ []).
  { induction segs as [| s segs IH]; intros acc Hacc; simpl; [done |].
    apply IH. destruct (_ && _); [by destruct acc | done]. }
  split; [| split; [apply Hgrow |]].
  - assert (Hin : ∀ segs acc, Forall (λ s, s ∈ segments) segs →
                    Forall (λ s, s ∈ segments) acc →
                    Forall (λ s, s ∈ segments) (inner acc segs)).
    { induction segs as [| s segs IH]; intros acc Hsegs Hacc; simpl; [done |].
      apply Forall_cons in Hsegs as [Hs Hsegs]. apply IH; [done |].
      destruct (_ && _); [| done]. apply Forall_app. split; [done |].
      by constructor. }
    apply Hin. by apply Forall_forall.
  - intros s Hs Hmatch. revert matching.
    induction segments as [| s0 segments IH]; intros matching; [by apply elem_of_nil in Hs |].
    simpl. apply elem_of_cons in Hs as [<- | Hs]; [| by apply IH].
    apply Hgrow. rewrite Hmatch. simpl.
    destruct (LLM.segment_in s matching) eqn:Hseen; simpl.
    + by destruct matching.
    + by destruct matching.
Qed.

Lemma collect_matches_spec key_quotes segments :
  Forall (λ s, s ∈ segments) (LLM.collect_matches key_quotes segments)
  ∧ (∀ quote s, quote ∈ key_quotes → s ∈ segments →
                LLM.quote_matches (Text.lower quote) s = true →
                LLM.collect_matches key_quotes segments ≠ []).
Proof.
  unfold LLM.collect_matches.
  set (inner quote := foldl (λ matching segment,
                        if LLM.quote_matches (Text.lower quote) segment
                           && negb (LLM.segment_in segment matching)
                        then matching ++ [segment] else matching)).
  change (Forall (λ s, s ∈ segments)
            (foldl (λ matching quote, inner quote matching segments) [] key_quotes)
          ∧ (∀ quote s, quote ∈ key_quotes → s ∈ segments →
               LLM.quote_matches (Text.lower quote) s = true →
               foldl (λ matching quote, inner quote matching segments) [] key_quotes ≠ [])).
  assert (Hgrow : ∀ quotes acc, acc ≠ [] →
            foldl (λ matching quote, inner quote matching segments) acc quotes ≠ []).
  { induction quotes as [| q quotes IH]; intros acc Hacc; simpl; [done |].
    apply IH. by apply (collect_inner_spec (Text.lower q) segments acc). }
  split.
  - assert (Hall : ∀ acc, Forall (λ s, s ∈ segments) acc →
              Forall (λ s, s ∈ segments)
                (foldl (λ matching quote, inner quote matching segments) acc key_quotes)).
    { induction key_quotes as [| q quotes IH]; intros acc Hacc; simpl; [done |].
      apply IH. by apply (collect_inner_spec (Text.lower q) segments acc). }
    apply Hall. constructor.
  - intros quote s Hq Hs Hmatch.
    assert (Hany : ∀ quotes acc, quote ∈ quotes →
              foldl (λ matching quote, inner quote matching segments) acc quotes ≠ []).
    { induction quotes as [| q quotes IH]; intros acc Hin; [by apply elem_of_nil in Hin |].
      simpl. apply elem_of_cons in Hin as [<- | Hin]; [| by apply IH].
      apply Hgrow.
      by apply (collect_inner_spec (Text.lower quote) segments acc) with s. }
    by apply Hany.
Qed.


(** ** Semantic windows: [_parse_llm_response] *)

(** The three cases of the window arithmetic.  [d] is the computed
    duration of the span.  A short span is grown by the rounded half of what
    is missing on each side, each side clamped to the chunk; a long span is
    cut by the rounded half of the excess on each side; otherwise the span
    is kept.  Before clamping, the grown window has the minimum duration and
    the cut one the maximum, up to the rounding of the six operations. *)
Lemma resolve_window_cases cfg chunk_start chunk_end s e T :
  1 <= T → Qabs s <= T → Qabs e <= T →
  Qabs (clip_duration_min cfg) <= T → Qabs (clip_duration_max cfg) <= T →
  let w := LLM.resolve_window cfg chunk_start chunk_end s e in
  let d := Float.sub e s in
  let tol := window_tolerance T in
  (- tol <= d - (e - s) ∧ d - (e - s) <= tol)
  ∧ (d < clip_duration_min cfg →
     ∃ grow,
       w = (Num.py_max chunk_start (Float.sub s grow),
            Num.py_min chunk_end (Float.add e grow))
       ∧ grow = Float.div (Float.sub (clip_duration_min cfg) d) 2
       ∧ - tol <= Float.add e grow - Float.sub s grow - clip_duration_min cfg
       ∧ Float.add e grow - Float.sub s grow - clip_duration_min cfg <= tol)
  ∧ (clip_duration_min cfg <= d → clip_duration_max cfg < d →
     - tol <= w.2 - w.1 - clip_duration_max cfg
     ∧ w.2 - w.1 - clip_duration_max cfg <= tol
     ∧ - tol <= w.1 + w.2 - (s + e) ∧ w.1 + w.2 - (s + e) <= tol)
  ∧ (clip_duration_min cfg <= d → d <= clip_duration_max cfg → w = (s, e)).
Proof.
  intros HT Hs He Hmin Hmax.
  apply Qabs_Qle_condition in Hs, He, Hmin, Hmax.
  unfold LLM.resolve_window, Float.sub, Float.add, Float.div.
  cbv zeta.
  pose proof (window_tolerance_small T HT) as Htol.
  pose proof (round_near T (e - s) HT ltac:(lra)) as Hd.
  set (d := Float.round (e - s)) in *.
  split; [split; lra |]. split; [| split].
  - intros Hshort. apply ltb_lt in Hshort as Hcmp. rewrite Hcmp.
    eexists. split; [reflexivity |]. split; [reflexivity |].
    pose proof (round_near T (clip_duration_min cfg - d) HT ltac:(lra)) as Hn.
    set (n := Float.round (clip_duration_min cfg - d)) in *.
    assert (Hhalf : n / 2 == n * (1 # 2)) by (field; lra).
    assert (Hrange : - (4 * T) <= n / 2 <= 4 * T) by (rewrite Hhalf; lra).
    pose proof (round_near T (n / 2) HT Hrange) as Hg.
    set (g := Float.round (n / 2)) in *.
    pose proof (round_near T (s - g) HT ltac:(lra)) as Ha.
    pose proof (round_near T (e + g) HT ltac:(lra)) as Hb.
    split; lra.
  - intros Hlong Hcut.
    apply ltb_ge in Hlong as Hcmp. rewrite Hcmp.
    apply ltb_lt in Hcut as Hcmp'. rewrite Hcmp'. cbn [fst snd].
    pose proof (round_near T (d - clip_duration_max cfg) HT ltac:(lra)) as Hx.
    set (x := Float.round (d - clip_duration_max cfg)) in *.
    assert (Hhalf : x / 2 == x * (1 # 2)) by (field; lra).
    assert (Hrange : - (4 * T) <= x / 2 <= 4 * T) by (rewrite Hhalf; lra).
    pose proof (round_near T (x / 2) HT Hrange) as Hg.
    set (g := Float.round (x / 2)) in *.
    pose proof (round_near T (s + g) HT ltac:(lra)) as Ha.
    pose proof (round_near T (e - g) HT ltac:(lra)) as Hb.
    repeat split; lra.
  - intros Hlong Hfits.
    apply ltb_ge in Hlong as Hcmp. rewrite Hcmp.
    apply ltb_ge in Hfits as Hcmp'. by rewrite Hcmp'.
Qed.







(** ** Merging the semantic candidates *)









(** ** Sorting *)

Section SortDesc.
Context {A : Type} (key : A → Q).

Lemma insert_desc_Forall (P : A → Prop) x l :
  P x → Forall P l →
  Forall P (insert_stable (λ y x, Num.ltb (key x) (key y)) x l).
Proof.
  intros Hx. induction 1 as [| y l Hy Hl IH]; simpl.
  - by constructor.
  - destruct (Num.ltb (key x) (key y)); repeat constructor; auto.
Qed.

Lemma insert_desc_sorted x l :
  StronglySorted (key_desc key) l →
  StronglySorted (key_desc key) (insert_stable (λ y x, Num.ltb (key x) (key y)) x l).
Proof.
  induction 1 as [| y l Hl IH Hy]; simpl.
  - repeat constructor.
  - destruct (Num.ltb (key x) (key y)) eqn:Hxy.
    + apply ltb_lt in Hxy. constructor; [done |].
      apply insert_desc_Forall; [| done]. unfold key_desc. lra.
    + apply ltb_ge in Hxy. constructor; [by constructor |].
      constructor; [done |].
      eapply Forall_impl; [exact Hy |]. unfold key_desc. intros z Hz. lra.
Qed.

Lemma sort_desc_sorted l : StronglySorted (key_desc key) (sort_desc key l).
Proof.
  unfold sort_desc, sort_stable. induction l as [| x l IH]; simpl.
  - constructor.
  - by apply insert_desc_sorted.
Qed.

(** The sort leaves a list alone that is sorted already. *)
Lemma sort_desc_fixed l :
  StronglySorted (key_desc key) l → sort_desc key l = l.
Proof.
  unfold sort_desc, sort_stable. induction 1 as [| x l Hl IH Hx]; simpl; [done |].
  rewrite IH. destruct Hx as [| y l Hy _]; simpl; [done |].
  unfold key_desc in Hy. apply ltb_ge in Hy. by rewrite Hy.
Qed.
End SortDesc.

Lemma StronglySorted_sublist {A} (R : A → A → Prop) l k :
  l `sublist_of` k → StronglySorted R k → StronglySorted R l.
Proof.
  induction 1 as [| x l k Hsub IH | x l k Hsub IH]; intros Hk.
  - constructor.
  - apply StronglySorted_cons in Hk as [Hx Hk]. apply StronglySorted_cons.
    split; [| by apply IH].
    apply Forall_forall. intros y Hy. rewrite Forall_forall in Hx.
    apply Hx. by eapply elem_of_sublist.
  - apply StronglySorted_cons in Hk as [_ Hk]. by apply IH.
Qed.

Lemma StronglySorted_lookup {A} (R : A → A → Prop) l i j a b :
  StronglySorted R l → (i < j)%nat → l !! i = Some a → l !! j = Some b → R a b.
Proof.
  intros Hl Hij Hi Hj. rewrite <- (take_drop j l) in Hl.
  apply (StronglySorted_app_1_elem_of _ _ _ _ _ Hl).
  - apply list_elem_of_lookup. exists i. by rewrite lookup_take_lt.
  - apply list_elem_of_lookup. exists 0%nat. by rewrite lookup_drop, Nat.add_0_r.
Qed.

Lemma filter_sublist {A} (p : A → bool) l : List.filter p l `sublist_of` l.
Proof.
  induction l as [| x l IH]; simpl; [constructor |].
  destruct (p x); by constructor.
Qed.

Lemma filter_fixed {A} (p : A → bool) l :
  Forall (λ x, p x = true) l → List.filter p l = l.
Proof.
  induction 1 as [| x l Hx _ IH]; simpl; [done |]. by rewrite Hx, IH.
Qed.

Lemma filter_all {A} (p : A → bool) l : Forall (λ x, p x = true) (List.filter p l).
Proof.
  induction l as [| x l IH]; simpl; [constructor |].
  destruct (p x) eqn:Hx; [by constructor | done].
Qed.

(** ** Ranker / filter *)

Lemma overlap_found_false highlight filtered :
  Analyzer.overlap_found highlight filtered = Some false
  ↔ Forall (λ existing, accepts existing highlight) filtered.
Proof.
  induction filtered as [| existing filtered IH]; simpl.
  - split; [constructor | done].
  - destruct (Analyzer.overlap_ratio highlight existing) as [ratio |] eqn:Hratio; simpl.
    + destruct (Num.ltb (5 # 10) ratio) eqn:Hcmp.
      * apply ltb_lt in Hcmp. split; [done |].
        intros [(r & Hr & Hle) _]%Forall_cons. rewrite Hratio in Hr.
        injection Hr as <-. lra.
      * apply ltb_ge in Hcmp. rewrite IH. split.
        -- intros Hrest. constructor; [by exists ratio | done].
        -- by intros [_ Hrest]%Forall_cons.
    + split; [done |]. intros [(r & Hr & _) _]%Forall_cons. congruence.
Qed.

Lemma fold_filter_step_None highlights :
  foldl Analyzer.filter_step None highlights = None.
Proof. induction highlights as [| h highlights IH]; simpl; [done | exact IH]. Qed.

(** The overlap loop keeps a sublist, in order, in which every highlight was
    accepted against all those before it. *)
Lemma fold_filter_step_spec highlights filtered out :
  foldl Analyzer.filter_step (Some filtered) highlights = Some out →
  StronglySorted accepts filtered →
  StronglySorted accepts out
  ∧ ∃ added, out = filtered ++ added ∧ added `sublist_of` highlights.
Proof.
  revert filtered.
  induction highlights as [| h highlights IH]; intros filtered Hrun Hok; simpl in Hrun.
  - injection Hrun as <-. split; [done |]. exists []. by rewrite app_nil_r.
  - destruct (Analyzer.overlap_found h filtered) as [found |] eqn:Hfound; simpl in Hrun;
      [| by rewrite fold_filter_step_None in Hrun].
    destruct found.
    + destruct (IH _ Hrun Hok) as (Hout & added & -> & Hsub).
      split; [done |]. exists added. split; [done | by constructor].
    + apply overlap_found_false in Hfound.
      destruct (IH _ Hrun) as (Hout & added & -> & Hsub).
      { apply StronglySorted_app. repeat split; [| done | repeat constructor].
        intros x1 x2 Hx1 ->%list_elem_of_singleton.
        rewrite Forall_forall in Hfound. by apply Hfound. }
      split; [done |]. exists (h :: added). split; [by rewrite <- app_assoc |].
      by constructor.
Qed.

(** On a list in which every highlight is accepted against all those before
    it, the overlap loop drops nothing. *)
Lemma fold_filter_step_fixed highlights filtered :
  StronglySorted accepts (filtered ++ highlights) →
  foldl Analyzer.filter_step (Some filtered) highlights = Some (filtered ++ highlights).
Proof.
  revert filtered. induction highlights as [| h highlights IH]; intros filtered Hok; simpl.
  - by rewrite app_nil_r.
  - assert (Analyzer.overlap_found h filtered = Some false) as ->.
    { apply overlap_found_false, Forall_forall. intros e He.
      apply (StronglySorted_app_1_elem_of _ _ _ _ _ Hok); [done | by left]. }
    simpl. rewrite IH; by rewrite <- app_assoc.
Qed.

(** The result of the filter: a sublist of the sorted input of at most five
    highlights, sorted by decreasing confidence, each of at least the minimum
    confidence and accepted against all those before it. *)
Lemma filter_highlights_spec highlights final :
  Analyzer._filter_highlights highlights = Some final →
  final `sublist_of` sort_desc get_confidence highlights
  ∧ StronglySorted accepts final
  ∧ StronglySorted (key_desc get_confidence) final
  ∧ (length final ≤ Analyzer.max_highlights)%nat
  ∧ Forall (λ h, Num.leb Analyzer.min_confidence (get_confidence h) = true) final.
Proof.
  unfold Analyzer._filter_highlights, Analyzer.remove_overlaps.
  destruct (foldl _ _ _) as [filtered |] eqn:Hrun; [| done]. simpl.
  intros [= <-].
  destruct (fold_filter_step_spec _ _ _ Hrun) as (Hok & added & -> & Hsub);
    [constructor |]. simpl in *.
  set (p := λ h, Num.leb Analyzer.min_confidence (get_confidence h)).
  assert (Hfinal : List.filter p (take Analyzer.max_highlights added) `sublist_of` added).
  { etrans; [apply filter_sublist | apply sublist_take]. }
  split; [by etrans |]. split; [by eapply StronglySorted_sublist |]. split.
  { eapply StronglySorted_sublist; [by etrans |]. apply sort_desc_sorted. }
  split; [| apply filter_all].
  etrans; [apply sublist_length, filter_sublist |].
  rewrite length_take. lia.
Qed.

(** C1, as stated, fails: the ratio the filter compares divides by the
    duration of the highlight under examination, not by the shorter one.  A
    highlight on [0, 10] and a less confident one on [0, 100] are both kept,
    although the shared 10 seconds are the whole of the shorter one. *)
Lemma overlap_of_shorter_counterexample :
  Analyzer._filter_highlights [short_inside; long_around]
  = Some [short_inside; long_around]
  ∧ ¬ ratio_of_shorter short_inside long_around <= 5 # 10.
Proof.
  split; [vm_compute; reflexivity |].
  vm_compute. intros H. by apply H.
Qed.

(** C1, amended.  For every two highlights of the filter's result, the
    shared duration divided by the duration of the one ranked later is
    defined and at most 0.5. *)
Theorem filter_overlap_bound highlights final i j a b :
  Analyzer._filter_highlights highlights = Some final →
  (i < j)%nat → final !! i = Some a → final !! j = Some b →
  ∃ ratio,
    Analyzer.overlap_ratio b a = Some ratio
    ∧ ratio == Analyzer.overlap_duration b a / Analyzer.duration b
    ∧ ratio <= 5 # 10.
Proof.
  intros Hrun Hij Hi Hj.
  destruct (filter_highlights_spec _ _ Hrun) as (_ & Hok & _).
  destruct (StronglySorted_lookup _ _ _ _ _ _ Hok Hij Hi Hj) as (ratio & Hratio & Hle).
  exists ratio. split; [done |]. split; [| done].
  by apply py_div_Some in Hratio as [_ ->].
Qed.

Lemma filter_overlap_bound_witness :
  ∃ ratio,
    Analyzer.overlap_ratio long_around short_inside = Some ratio
    ∧ ratio == Analyzer.overlap_duration long_around short_inside
               / Analyzer.duration long_around
    ∧ ratio <= 5 # 10.
Proof.
  apply (filter_overlap_bound [short_inside; long_around]
           [short_inside; long_around] 0 1).
  - vm_compute. reflexivity.
  - lia.
  - reflexivity.
  - reflexivity.
Defined.

(** C5.  The filter is idempotent: applied to a result of its own, it
    returns that result, element for element and in the same order. *)
Theorem filter_idempotent highlights final :
  Analyzer._filter_highlights highlights = Some final →
  Analyzer._filter_highlights final = Some final.
Proof.
  intros Hrun.
  destruct (filter_highlights_spec _ _ Hrun) as (_ & Hok & Hsorted & Hlen & Hconf).
  unfold Analyzer._filter_highlights, Analyzer.remove_overlaps.
  rewrite (sort_desc_fixed _ _ Hsorted).
  rewrite (fold_filter_step_fixed final []) by done. simpl.
  rewrite take_ge by done. by rewrite filter_fixed.
Qed.

Lemma filter_idempotent_witness :
  Analyzer._filter_highlights [short_inside; long_around]
  = Some [short_inside; long_around].
Proof.
  apply (filter_idempotent [long_around; short_inside]).
  vm_compute. reflexivity.
Defined.

(** ** Unparseable answers and the fallback analysis *)



Lemma fallback_highlight_total segments i segment :
  segments !! i = Some segment →
  is_Some (LLM.fallback_highlight segments i segment).
Proof.
  intros Hi. apply lookup_lt_Some in Hi. unfold LLM.fallback_highlight.
  destruct (LLM.fallback_score segment) as [score emos].
  destruct (Num.leb (4 # 10) score); [| done].
  destruct (lookup_lt_is_Some_2 segments (i - 1)) as [first ->]; [lia |].
  destruct (lookup_lt_is_Some_2 segments (Nat.min (length segments - 1) (i + 2)))
    as [final ->]; [lia |].
  done.
Qed.

(** The fallback analysis returns, with at most three highlights. *)
Lemma fallback_analysis_total full_transcript segments :
  ∃ highlights,
    LLM._fallback_analysis full_transcript segments = Some highlights
    ∧ (length highlights ≤ 3)%nat.
Proof.
  unfold LLM._fallback_analysis.
  destruct (mapM _ _) as [found |] eqn:Hfound; simpl.
  - eexists. split; [done |]. rewrite length_take. lia.
  - assert (is_Some (mapM (λ p, LLM.fallback_highlight segments p.1 p.2)
                       (imap (λ i s, (i, s)) segments))) as [? Hsome];
      [| congruence].
    apply mapM_is_Some, Forall_forall. intros [i s] Hin.
    apply list_elem_of_lookup in Hin as [j Hj].
    rewrite list_lookup_imap in Hj.
    destruct (segments !! j) as [s' |] eqn:Hs; [| done].
    injection Hj as <- <-. by apply fallback_highlight_total.
Qed.




(** ** Hashtags *)

Lemma mem_true x xs : Analyzer.mem x xs = true ↔ x ∈ xs.
Proof. unfold Analyzer.mem. apply bool_decide_eq_true. Qed.

Lemma mem_false x xs : Analyzer.mem x xs = false ↔ x ∉ xs.
Proof. unfold Analyzer.mem. apply bool_decide_eq_false. Qed.

Lemma dict_fromkeys_snoc l k :
  Analyzer.dict_fromkeys (l ++ [k])
  = if Analyzer.mem k (Analyzer.dict_fromkeys l)
    then Analyzer.dict_fromkeys l else Analyzer.dict_fromkeys l ++ [k].
Proof. unfold Analyzer.dict_fromkeys. by rewrite foldl_snoc. Qed.

Lemma elem_of_dict_fromkeys l t : t ∈ Analyzer.dict_fromkeys l ↔ t ∈ l.
Proof.
  induction l as [| k l IH] using rev_ind; [done |].
  rewrite dict_fromkeys_snoc.
  destruct (Analyzer.mem k (Analyzer.dict_fromkeys l)) eqn:Hk.
  - apply mem_true in Hk. rewrite elem_of_app, list_elem_of_singleton, IH.
    split; [auto |]. intros [? | ->]; [done | by apply IH].
  - by rewrite !elem_of_app, IH.
Qed.

Lemma NoDup_dict_fromkeys l : NoDup (Analyzer.dict_fromkeys l).
Proof.
  induction l as [| k l IH] using rev_ind; [constructor |].
  rewrite dict_fromkeys_snoc.
  destruct (Analyzer.mem k (Analyzer.dict_fromkeys l)) eqn:Hk; [done |].
  apply mem_false in Hk. apply NoDup_app. split; [done |]. split.
  - by intros x Hx ->%list_elem_of_singleton.
  - apply NoDup_singleton.
Qed.

(** The keys come in the order of their first occurrence: what stands before
    a key in the result is what occurs before its first occurrence in the
    input. *)
Lemma dict_fromkeys_first_occurrence l before tag after :
  Analyzer.dict_fromkeys l = before ++ tag :: after →
  ∃ r1 r2, l = r1 ++ tag :: r2 ∧ (tag ∉ r1) ∧ (∀ t, t ∈ before ↔ t ∈ r1).
Proof.
  revert before after. induction l as [| k l IH] using rev_ind; intros before after Hsplit.
  - by destruct before.
  - rewrite dict_fromkeys_snoc in Hsplit.
    destruct (Analyzer.mem k (Analyzer.dict_fromkeys l)) eqn:Hk.
    + destruct (IH _ _ Hsplit) as (r1 & r2 & -> & Hr1 & Hsame).
      exists r1, (r2 ++ [k]). by rewrite <- app_assoc.
    + apply mem_false in Hk.
      destruct after as [| a after _] using rev_ind.
      * apply (app_inj_tail _ before) in Hsplit as [Hl ->].
        exists l, []. split; [done |]. split.
        -- by rewrite <- elem_of_dict_fromkeys.
        -- intros t. by rewrite <- Hl, elem_of_dict_fromkeys.
      * rewrite app_comm_cons, app_assoc in Hsplit.
        apply app_inj_tail in Hsplit as [Hl ->].
        destruct (IH _ _ Hl) as (r1 & r2 & -> & Hr1 & Hsame).
        exists r1, (r2 ++ [a]). by rewrite <- app_assoc.
Qed.

Lemma lookup_assoc_Some {B} key (d : list (string * B)) v :
  Analyzer.lookup_assoc key d = Some v → v ∈ map snd d.
Proof.
  unfold Analyzer.lookup_assoc.
  destruct (List.find _ d) as [p |] eqn:Hfind; [| done].
  intros [= <-]. apply find_some in Hfind as [Hin _].
  apply list_elem_of_In in Hin. by apply list_elem_of_fmap_2.
Qed.

Lemma elem_of_concat {A} (x : A) (ls : list (list A)) :
  x ∈ concat ls ↔ ∃ l, x ∈ l ∧ l ∈ ls.
Proof.
  induction ls as [| l ls IH]; simpl.
  - split; [by intros ?%elem_of_nil | by intros (l & _ & ?%elem_of_nil)].
  - rewrite elem_of_app, IH. split.
    + intros [Hx | (l' & Hx & Hl')]; [exists l | exists l']; split; auto;
        [by left | by right].
    + intros (l' & Hx & [-> | Hl']%elem_of_cons); [by left | right; by exists l'].
Qed.

Lemma raw_hashtags_known txt emos t :
  t ∈ Analyzer.raw_hashtags txt emos → t ∈ known_tags.
Proof.
  unfold Analyzer.raw_hashtags, known_tags. rewrite !elem_of_app.
  intros [Hbase | [Hemo | Htopic]]; [by left | right; left | right; right].
  - apply elem_of_concat in Hemo as (tags & Ht & Htags).
    apply (list_elem_of_fmap (A := string)) in Htags as (emo & -> & _).
    destruct (Analyzer.lookup_assoc emo Analyzer.emotion_tags) as [v |] eqn:Hv;
      [| by apply elem_of_nil in Ht].
    apply elem_of_concat. exists v. split; [done |]. by eapply lookup_assoc_Some.
  - apply list_elem_of_fmap in Htopic as (p & -> & Hp).
    apply list_elem_of_In, filter_In in Hp as [Hp _].
    apply list_elem_of_fmap_2. by apply list_elem_of_In.
Qed.

Lemma generic_tags_unknown :
  Forall (λ tag, tag ∉ known_tags) Analyzer.generic_tags.
Proof.
  repeat constructor; apply mem_false; vm_compute; reflexivity.
Qed.

Lemma fold_keys_extends (step_in : list string → string → bool) acc l :
  ∃ more,
    foldl (λ keys k, if step_in keys k then keys else keys ++ [k]) acc l
    = acc ++ more.
Proof.
  revert acc. induction l as [| k l IH]; intros acc; simpl.
  - exists []. by rewrite app_nil_r.
  - destruct (step_in acc k); [apply IH |].
    destruct (IH (acc ++ [k])) as [more ->]. exists (k :: more).
    by rewrite <- app_assoc.
Qed.

(** The three base tags always head the list. *)
Lemma dict_fromkeys_base txt emos :
  ∃ more,
    Analyzer.dict_fromkeys (Analyzer.raw_hashtags txt emos)
    = Analyzer.base_tags ++ more.
Proof.
  unfold Analyzer.dict_fromkeys, Analyzer.raw_hashtags. rewrite foldl_app.
  change (foldl _ [] Analyzer.base_tags) with Analyzer.base_tags.
  apply (fold_keys_extends (λ keys k, Analyzer.mem k keys)).
Qed.

Lemma pad_NoDup min_count tags hashtags :
  NoDup hashtags → NoDup (foldl (Analyzer.pad_step min_count) hashtags tags).
Proof.
  revert hashtags. induction tags as [| tag tags IH]; intros hashtags Hnd; simpl; [done |].
  apply IH. unfold Analyzer.pad_step.
  destruct (Analyzer.mem tag hashtags) eqn:Hmem; simpl; [done |].
  destruct (_ <? _)%Z; [| done].
  apply mem_false in Hmem. apply NoDup_app. split; [done |]. split.
  - by intros x Hx ->%list_elem_of_singleton.
  - apply NoDup_singleton.
Qed.

Lemma pad_extends min_count tags hashtags :
  ∃ added, foldl (Analyzer.pad_step min_count) hashtags tags = hashtags ++ added.
Proof.
  revert hashtags. induction tags as [| tag tags IH]; intros hashtags; simpl.
  - exists []. by rewrite app_nil_r.
  - unfold Analyzer.pad_step at 2.
    destruct (_ && _); [| apply IH].
    destruct (IH (hashtags ++ [tag])) as [added ->]. exists (tag :: added).
    by rewrite <- app_assoc.
Qed.

(** Padding never goes past the minimum count. *)
Lemma pad_length_le min_count tags hashtags :
  (Z.of_nat (length hashtags) ≤ min_count)%Z →
  (Z.of_nat (length (foldl (Analyzer.pad_step min_count) hashtags tags)) ≤ min_count)%Z.
Proof.
  revert hashtags. induction tags as [| tag tags IH]; intros hashtags Hle; simpl; [done |].
  apply IH. unfold Analyzer.pad_step.
  destruct (negb _); simpl; [| done].
  destruct (_ <? _)%Z eqn:Hlt; [| done].
  apply Z.ltb_lt in Hlt. rewrite length_app. simpl. lia.
Qed.

(** Padding with fresh tags reaches the minimum count or uses all of them. *)
Lemma pad_length_ge min_count tags hashtags :
  NoDup tags → (∀ tag, tag ∈ tags → tag ∉ hashtags) →
  let padded := foldl (Analyzer.pad_step min_count) hashtags tags in
  (min_count ≤ Z.of_nat (length padded))%Z
  ∨ length padded = (length hashtags + length tags)%nat.
Proof.
  intros Hnd. revert hashtags.
  induction Hnd as [| tag tags Htag Hnd IH]; intros hashtags Hfresh; simpl.
  - right. lia.
  - assert (Analyzer.pad_step min_count hashtags tag
            = if (Z.of_nat (length hashtags) <? min_count)%Z
              then hashtags ++ [tag] else hashtags) as ->.
    { unfold Analyzer.pad_step.
      assert (Analyzer.mem tag hashtags = false) as ->
        by (apply mem_false, Hfresh; by left).
      done. }
    destruct (_ <? _)%Z eqn:Hlt.
    + destruct (IH (hashtags ++ [tag])) as [Hmin | Hlen].
      * intros t Ht [Hin | ->%list_elem_of_singleton]%elem_of_app; [| done].
        apply (Hfresh t); [by right | done].
      * by left.
      * right. rewrite Hlen, length_app. simpl. lia.
    + apply Z.ltb_ge in Hlt. left.
      destruct (pad_extends min_count tags hashtags) as [added ->].
      rewrite length_app. lia.
Qed.

Lemma NoDup_split_unique {A} (l a a' b b' : list A) x :
  NoDup l → l = a ++ x :: b → l = a' ++ x :: b' → a = a'.
Proof.
  intros Hnd Ha Ha'.
  assert (length a = length a') as Hlen.
  { apply (NoDup_lookup l _ _ x Hnd).
    - rewrite Ha. by apply list_lookup_middle.
    - rewrite Ha'. by apply list_lookup_middle. }
  rewrite <- (take_app_length a (x :: b)), <- Ha, Hlen, Ha'.
  apply take_app_length.
Qed.

Lemma NoDup_generic_tags : NoDup Analyzer.generic_tags.
Proof. apply (bool_decide_unpack _). vm_compute. reflexivity. Qed.

Lemma slice_to_take k (l : list string) : ∃ n, Analyzer.slice_to k l = take n l.
Proof. unfold Analyzer.slice_to. destruct (k <? 0)%Z; eauto. Qed.

(** The generated list is the list of distinct tags, cut short or padded. *)
Lemma generate_hashtags_shape cfg txt emos :
  let distinct := Analyzer.dict_fromkeys (Analyzer.raw_hashtags txt emos) in
  (∃ n, Analyzer._generate_hashtags cfg txt emos = take n distinct)
  ∨ (∃ added, Analyzer._generate_hashtags cfg txt emos = distinct ++ added).
Proof.
  intros distinct. unfold Analyzer._generate_hashtags. fold distinct.
  destruct (_ <? _)%Z; [left; apply slice_to_take |].
  destruct (_ <? _)%Z; [right; apply pad_extends |].
  right. exists []. by rewrite app_nil_r.
Qed.

(** C7, as stated, fails on the count: with a configured minimum of nine,
    a highlight without emotion or topic gets the three base tags and the
    five generic ones, eight in all. *)
Lemma hashtag_count_counterexample :
  let hashtags := Analyzer._generate_hashtags nine_tags_config EmptyString [] in
  ¬ (hashtag_min_count nine_tags_config ≤ Z.of_nat (length hashtags)
     ≤ hashtag_max_count nine_tags_config)%Z.
Proof.
  intros hashtags. vm_compute in hashtags. subst hashtags. simpl. lia.
Qed.

(** C7, amended.  The hashtags of a highlight hold no duplicate; the tags
    taken from the tables stand in the order of their first occurrence (what
    stands before such a tag is what occurs before its first occurrence);
    and the length lies within the configured bounds when the maximum is not
    negative, the minimum is not above the maximum and the minimum is at most
    eight, the three base tags and the five generic tags. *)
Theorem hashtags_invariant cfg txt emos :
  let hashtags := Analyzer._generate_hashtags cfg txt emos in
  NoDup hashtags
  ∧ (∀ before tag after,
       hashtags = before ++ tag :: after →
       tag ∈ Analyzer.raw_hashtags txt emos →
       ∃ r1 r2, Analyzer.raw_hashtags txt emos = r1 ++ tag :: r2
                ∧ (tag ∉ r1) ∧ (∀ t, t ∈ before ↔ t ∈ r1))
  ∧ ((0 ≤ hashtag_max_count cfg)%Z →
     (hashtag_min_count cfg ≤ hashtag_max_count cfg)%Z →
     (hashtag_min_count cfg ≤ 8)%Z →
     (hashtag_min_count cfg ≤ Z.of_nat (length hashtags) ≤ hashtag_max_count cfg)%Z).
Proof.
  intros hashtags.
  pose proof (NoDup_dict_fromkeys (Analyzer.raw_hashtags txt emos)) as Hdistinct.
  assert (Hnd : NoDup hashtags).
  { unfold hashtags, Analyzer._generate_hashtags.
    destruct (_ <? _)%Z.
    - destruct (slice_to_take (hashtag_max_count cfg)
                  (Analyzer.dict_fromkeys (Analyzer.raw_hashtags txt emos))) as [n ->].
      eapply sublist_NoDup; [done | apply sublist_take].
    - destruct (_ <? _)%Z; [by apply pad_NoDup | done]. }
  split; [done |]. split.
  - intros before tag after Hsplit Hraw.
    destruct (generate_hashtags_shape cfg txt emos) as [[n Hcut] | [added Hpad]];
      fold hashtags in Hcut || fold hashtags in Hpad.
    + apply (dict_fromkeys_first_occurrence _ before tag
               (after ++ drop n (Analyzer.dict_fromkeys (Analyzer.raw_hashtags txt emos)))).
      rewrite app_comm_cons, app_assoc, <- Hsplit, Hcut. by rewrite take_drop.
    + apply elem_of_dict_fromkeys, list_elem_of_split in Hraw as (d1 & d2 & Hd).
      assert (before = d1) as ->.
      { apply (NoDup_split_unique hashtags _ _ after (d2 ++ added) tag); [done .. |].
        by rewrite Hpad, Hd, <- app_assoc. }
      by apply (dict_fromkeys_first_occurrence _ d1 tag d2).
  - intros Hmax Hle Height.
    destruct (dict_fromkeys_base txt emos) as [more Hbase].
    unfold hashtags, Analyzer._generate_hashtags. rewrite Hbase.
    set (distinct := Analyzer.base_tags ++ more).
    assert (Hthree : (3 ≤ length distinct)%nat)
      by (unfold distinct; rewrite length_app; simpl; lia).
    destruct (_ <? _)%Z eqn:Hlong.
    + apply Z.ltb_lt in Hlong. unfold Analyzer.slice_to.
      destruct (_ <? 0)%Z eqn:Hneg; [apply Z.ltb_lt in Hneg; lia |].
      rewrite length_take. lia.
    + apply Z.ltb_ge in Hlong. destruct (_ <? _)%Z eqn:Hshort.
      * apply Z.ltb_lt in Hshort.
        pose proof (pad_length_le (hashtag_min_count cfg) Analyzer.generic_tags
                      distinct ltac:(lia)) as Hup.
        destruct (pad_length_ge (hashtag_min_count cfg) Analyzer.generic_tags distinct)
          as [Hlow | Hlow].
        -- apply NoDup_generic_tags.
        -- intros tag Htag Hin.
           pose proof generic_tags_unknown as Hfresh. rewrite Forall_forall in Hfresh.
           apply (Hfresh tag Htag). apply (raw_hashtags_known txt emos).
           apply elem_of_dict_fromkeys. by rewrite Hbase.
        -- lia.
        -- change (length Analyzer.generic_tags) with 5%nat in Hlow. lia.
      * apply Z.ltb_ge in Hshort. lia.
Qed.

Lemma hashtags_invariant_witness :
  (hashtag_min_count default_config
   ≤ Z.of_nat (length (Analyzer._generate_hashtags default_config
                         "money tips" ["funny"%string]))
   ≤ hashtag_max_count default_config)%Z.
Proof.
  apply (hashtags_invariant default_config "money tips" ["funny"%string]);
    simpl; lia.
Defined.

(** ** [find_highlights] *)

(** The filter returns when no highlight has a duration of zero. *)
Lemma overlap_found_total highlight filtered :
  ¬ Analyzer.duration highlight == 0 →
  is_Some (Analyzer.overlap_found highlight filtered).
Proof.
  intros Hdur. induction filtered as [| existing filtered IH]; simpl; [done |].
  unfold Analyzer.overlap_ratio. rewrite py_div_nonzero by done. simpl.
  by destruct (Num.ltb _ _).
Qed.

Lemma remove_overlaps_total highlights filtered :
  Forall (λ h, ¬ Analyzer.duration h == 0) highlights →
  is_Some (foldl Analyzer.filter_step (Some filtered) highlights).
Proof.
  intros Hall. revert filtered.
  induction Hall as [| h highlights Hh _ IH]; intros filtered; simpl; [done |].
  destruct (overlap_found_total h filtered Hh) as [found ->]. simpl. apply IH.
Qed.

Lemma filter_highlights_total highlights :
  Forall (λ h, ¬ Analyzer.duration h == 0) highlights →
  is_Some (Analyzer._filter_highlights highlights).
Proof.
  intros Hall. unfold Analyzer._filter_highlights, Analyzer.remove_overlaps.
  destruct (remove_overlaps_total (sort_desc get_confidence highlights) []) as [out ->];
    [| done].
  unfold sort_desc, sort_stable.
  induction Hall as [| h highlights Hh _ IH]; simpl; [constructor |].
  by apply insert_desc_Forall.
Qed.

(** The first scenario of the specification: the hook segment alone becomes
    the highlight, on its own span. *)
Example find_highlights_hook_segment :
  map (λ e, (start_time (en_highlight e), end_time (en_highlight e), en_clip_number e))
      (Analyzer.find_highlights default_config no_model intro_transcript no_metadata)
  = [(5, 40, 1%nat)].
Proof. vm_compute. reflexivity. Qed.

(** Failures inside the pipeline do occur: a transcript without its text,
    and highlights of duration zero met by the filter's division. *)
Example find_highlights_missing_text :
  Analyzer.find_highlights_body default_config no_model no_text_transcript no_metadata = None
  ∧ Analyzer.find_highlights default_config no_model no_text_transcript no_metadata = [].
Proof. split; vm_compute; reflexivity. Qed.

Example find_highlights_zero_division :
  Analyzer.find_highlights_body default_config no_model instant_transcript no_metadata = None
  ∧ Analyzer.find_highlights default_config no_model instant_transcript no_metadata = [].
Proof. split; vm_compute; reflexivity. Qed.

(** The typed pipeline is [find_highlights] with the calls as the analyzers
    make them; none of them raises outside [Exception]. *)
Lemma typed_find_highlights cfg ext transcript meta :
  Guard.find_highlights (Guard.typed_callees cfg ext transcript meta)
  = Guard.Returned (Analyzer.find_highlights cfg ext transcript meta).
Proof.
  unfold Guard.find_highlights, Guard.find_highlights_body, Analyzer.find_highlights,
    Analyzer.find_highlights_body.
  cbn [Guard.typed_callees Guard.get_segments Guard.is_empty Guard.score_segments
       Guard.get_text Guard.analyze_content Guard.combine_analyses
       Guard.filter_highlights Guard.enrich_highlights Guard.no_clips
       mbind Guard.outcome_bind].
  destruct (default [] (tr_segments transcript)) as [| segment segments];
    [reflexivity |].
  destruct (tr_text transcript) as [full_text |]; [| reflexivity].
  cbn [Guard.or_raise mbind Guard.outcome_bind option_bind].
  destruct (LLM.analyze_content _ _ _ _ _) as [llm_highlights |]; [| reflexivity].
  cbn [Guard.or_raise mbind Guard.outcome_bind option_bind].
  destruct (Analyzer._combine_analyses _ _ _ _) as [combined |]; [| reflexivity].
  cbn [Guard.or_raise mbind Guard.outcome_bind option_bind].
  destruct (Analyzer._filter_highlights _); reflexivity.
Qed.







(** * Further properties of the analyzers *)

(** ** Segment scorer: sign of the score and recorded emotions *)

Lemma of_nat_nonneg n : 0 <= Num.of_nat n.
Proof.
  unfold Num.of_nat. change 0 with (inject_Z 0). rewrite <- Zle_Qle. lia.
Qed.

Lemma count_if_positive {A} (p : A → bool) xs :
  (0 <? Scorer.count_if p xs)%nat = existsb p xs.
Proof.
  unfold Scorer.count_if. induction xs as [| x xs IH]; simpl; [done |].
  destruct (p x); simpl; [done | exact IH].
Qed.

Lemma emotion_fold_spec cfg txt entries st :
  (∀ emo, 0 <= emotion_weights cfg emo) →
  let st' := foldl (Scorer.emotion_step cfg txt) st entries in
  st.1 <= st'.1
  ∧ st'.2 = st.2 ++ map fst (List.filter
                              (λ entry : string * list string,
                                 existsb (λ keyword, Text.contains keyword txt) entry.2)
                              entries).
Proof.
  intros Hw. revert st.
  induction entries as [| [emo keywords] entries IH]; intros st; simpl.
  - split; [lra | by rewrite app_nil_r].
  - rewrite count_if_positive.
    destruct (existsb _ keywords) eqn:Hhit; simpl.
    + destruct (IH (st.1 + Num.of_nat (Scorer.count_if (λ keyword, Text.contains keyword txt) keywords)
                           * emotion_weights cfg emo, st.2 ++ [emo]))
        as [Hle Hemo].
      simpl in *. split.
      * pose proof (Qmult_le_0_compat _ _ (of_nat_nonneg
                      (Scorer.count_if (λ keyword, Text.contains keyword txt) keywords))
                      (Hw emo)).
        lra.
      * by rewrite Hemo, <- app_assoc.
    + apply IH.
Qed.

Lemma raw_score_spec cfg txt :
  (∀ emo, 0 <= emotion_weights cfg emo) →
  0 <= (Scorer.raw_score cfg txt).1
  ∧ (Scorer.raw_score cfg txt).2 = matched_emotions txt.
Proof.
  intros Hw. unfold Scorer.raw_score. simpl.
  destruct (emotion_fold_spec cfg txt Scorer.emotion_keywords (0, []) Hw) as [Hle Hemo].
  simpl in Hle, Hemo. split; [| exact Hemo].
  pose proof (of_nat_nonneg (Scorer.hook_score txt)).
  pose proof (of_nat_nonneg (Scorer.boost_score cfg txt)).
  lra.
Qed.

Lemma length_penalty_nonneg txt s : 0 <= s → 0 <= Scorer.length_penalty txt s.
Proof. intros Hs. unfold Scorer.length_penalty. repeat case_match; lra. Qed.

Lemma position_bonus_nonneg i n s : 0 <= s → 0 <= Scorer.position_bonus i n s.
Proof. intros Hs. unfold Scorer.position_bonus. repeat case_match; lra. Qed.

Lemma NoDup_matched_emotions txt : NoDup (matched_emotions txt).
Proof.
  unfold matched_emotions.
  eapply sublist_NoDup.
  - apply (bool_decide_unpack (NoDup (map fst Scorer.emotion_keywords))).
    vm_compute. reflexivity.
  - apply (fmap_sublist fst), filter_sublist.
Qed.

(** X1.  With emotion weights that are not negative, the scored segment of
    the i-th segment carries its index, times and text, the duration [end -
    start], a score that is not negative, and as emotions exactly the
    categories with a keyword in the lower-cased text, each once and in the
    order of the keyword table. *)
Theorem scored_segment_shape cfg segments i segment :
  (∀ emo, 0 <= emotion_weights cfg emo) →
  segments !! i = Some segment →
  length (Scorer._score_segments cfg segments) = length segments
  ∧ ∃ scored,
      Scorer._score_segments cfg segments !! i = Some scored
      ∧ segment_index scored = i
      ∧ sc_start_time scored = seg_start segment
      ∧ sc_end_time scored = seg_end segment
      ∧ sc_text scored = seg_text segment
      ∧ sc_duration scored = seg_end segment - seg_start segment
      ∧ 0 <= sc_score scored
      ∧ sc_emotions scored = matched_emotions (Text.lower (seg_text segment))
      ∧ NoDup (sc_emotions scored).
Proof.
  intros Hw Hi. unfold Scorer._score_segments.
  split; [apply length_imap |].
  rewrite list_lookup_imap, Hi. simpl. eexists. split; [done |].
  unfold Scorer.score_segment.
  destruct (raw_score_spec cfg (Text.lower (seg_text segment)) Hw) as [Hs Hemo].
  destruct (Scorer.raw_score cfg (Text.lower (seg_text segment))) as [s emos].
  simpl in *. subst emos. repeat (split; [done |]).
  split; [by apply position_bonus_nonneg, length_penalty_nonneg |].
  split; [done | apply NoDup_matched_emotions].
Qed.

Lemma scored_segment_shape_witness :
  length (Scorer._score_segments default_config intro_segments) = length intro_segments
  ∧ ∃ scored,
      Scorer._score_segments default_config intro_segments !! 1%nat = Some scored
      ∧ segment_index scored = 1%nat
      ∧ sc_start_time scored = 5
      ∧ sc_end_time scored = 40
      ∧ sc_text scored = "you won't believe this secret nobody tells you"%string
      ∧ sc_duration scored = 40 - 5
      ∧ 0 <= sc_score scored
      ∧ sc_emotions scored
        = matched_emotions (Text.lower "you won't believe this secret nobody tells you")
      ∧ NoDup (sc_emotions scored).
Proof.
  apply (scored_segment_shape default_config intro_segments 1
           (mkSegment 5 40 "you won't believe this secret nobody tells you")).
  - intros emo. simpl. lra.
  - reflexivity.
Defined.

(** ** Transcript chunking: shape of the chunks *)

Lemma length_append (a b : string) :
  String.length (a +:+ b) = (String.length a + String.length b)%nat.
Proof.
  induction a as [| x a IH]; [done |]. rewrite append_cons. simpl. by rewrite IH.
Qed.

Lemma nonempty_false s : LLM.nonempty s = false → s = EmptyString.
Proof. by destruct s. Qed.

Lemma split_step_shape chunks current segment :
  (LLM.nonempty (ch_text current) = false → ch_segments current = []) →
  (LLM.nonempty (ch_text current) = true → chunk_spans_segments current) →
  chunk_within_budget current →
  Forall (λ c, chunk_spans_segments c ∧ chunk_within_budget c) chunks →
  let '(chunks', current') := LLM.split_step (chunks, current) segment in
  LLM.nonempty (ch_text current') = true
  ∧ chunk_spans_segments current'
  ∧ chunk_within_budget current'
  ∧ Forall (λ c, chunk_spans_segments c ∧ chunk_within_budget c) chunks'.
Proof.
  intros Hempty Hspan Hbudget Hchunks. unfold LLM.split_step.
  destruct (_ && _) eqn:Hfull; simpl.
  - apply andb_prop in Hfull as [_ Htext].
    split; [apply nonempty_append |]. split; [by exists segment, segment |].
    split; [left; simpl; lia |].
    apply Forall_app. split; [done |]. constructor; [| constructor].
    destruct (Hspan Htext) as (first & final & Hhead & Hlast & Hstart & Hend).
    split; [| exact Hbudget].
    exists first, final. simpl. by rewrite Hlast.
  - split; [apply nonempty_append |]. split; [| split; [| done]].
    + destruct (LLM.nonempty (ch_text current)) eqn:Htext.
      * destruct (Hspan eq_refl) as (first & final & Hhead & Hlast & Hstart & Hend).
        exists first, segment. simpl. rewrite last_snoc.
        destruct (ch_segments current) as [| s segs]; [done |].
        simpl in *. by repeat split.
      * rewrite (Hempty eq_refl). by exists segment, segment.
    + unfold chunk_within_budget. simpl.
      apply andb_false_iff in Hfull as [Hfits | Htext].
      * right. apply Nat.ltb_ge in Hfits.
        rewrite length_append in Hfits. rewrite !length_append.
        unfold LLM.chunk_size in *. simpl. lia.
      * left. rewrite (Hempty Htext). simpl. lia.
Qed.

Lemma split_fold_shape segments chunks current :
  (LLM.nonempty (ch_text current) = false → ch_segments current = []) →
  (LLM.nonempty (ch_text current) = true → chunk_spans_segments current) →
  chunk_within_budget current →
  Forall (λ c, chunk_spans_segments c ∧ chunk_within_budget c) chunks →
  let '(chunks', current') := foldl LLM.split_step (chunks, current) segments in
  (LLM.nonempty (ch_text current') = true → chunk_spans_segments current')
  ∧ chunk_within_budget current'
  ∧ Forall (λ c, chunk_spans_segments c ∧ chunk_within_budget c) chunks'.
Proof.
  revert chunks current.
  induction segments as [| segment segments IH];
    intros chunks current Hempty Hspan Hbudget Hchunks; cbn [foldl]; [done |].
  pose proof (split_step_shape chunks current segment Hempty Hspan Hbudget Hchunks)
    as Hstep.
  destruct (LLM.split_step (chunks, current) segment) as [chunks1 current1].
  destruct Hstep as (Htext & Hspan1 & Hbudget1 & Hchunks1).
  apply IH; [congruence | done | done | done].
Qed.

Lemma split_chunks_shape transcript segments :
  Forall (λ c, chunk_spans_segments c ∧ chunk_within_budget c)
         (LLM._split_transcript transcript segments).
Proof.
  unfold LLM._split_transcript.
  pose proof (split_fold_shape segments [] LLM.empty_chunk) as Hinv.
  destruct (foldl LLM.split_step ([], LLM.empty_chunk) segments) as [chunks current].
  simpl in Hinv |- *.
  destruct Hinv as (Hspan & Hbudget & Hchunks);
    [done | done | left; simpl; lia | constructor |].
  destruct (LLM.nonempty (ch_text current)) eqn:Htext; [| done].
  apply Forall_app. split; [done |]. constructor; [| constructor]. auto.
Qed.

Lemma length_concat_nonempty {A} (ls : list (list A)) :
  Forall (λ l, l ≠ []) ls → (length ls ≤ length (concat ls))%nat.
Proof.
  induction 1 as [| l ls Hl _ IH]; simpl; [done |].
  rewrite length_app. destruct l; [done |]. simpl. lia.
Qed.

(** X2.  Every chunk holds at least one segment; its start time is the
    start of its first segment and its end time the end of its last one; so
    there are never more chunks than segments. *)
Theorem chunks_span_their_segments transcript segments :
  Forall chunk_spans_segments (LLM._split_transcript transcript segments)
  ∧ (length (LLM._split_transcript transcript segments) ≤ length segments)%nat.
Proof.
  pose proof (split_chunks_shape transcript segments) as Hshape.
  split.
  - eapply Forall_impl; [exact Hshape |]. by intros c [Hc _].
  - unfold LLM._split_transcript in *.
    pose proof (split_fold_inv segments [] LLM.empty_chunk) as Hinv.
    destruct (foldl LLM.split_step ([], LLM.empty_chunk) segments) as [chunks current].
    simpl in Hinv.
    destruct Hinv as (Hsegs & Hempty & _); [done | done |].
    assert (Hparts : ∀ cs, Forall (λ c, chunk_spans_segments c ∧ chunk_within_budget c) cs →
                           (length cs ≤ length (concat (map ch_segments cs)))%nat).
    { intros cs Hcs. rewrite <- (length_map ch_segments cs).
      apply length_concat_nonempty, Forall_fmap.
      eapply Forall_impl; [exact Hcs |].
      intros c [(first & _ & Hhead & _) _] Hnil. simpl in Hnil.
      by rewrite Hnil in Hhead. }
    destruct (LLM.nonempty (ch_text current)) eqn:Htext.
    + etrans; [apply (Hparts _ Hshape) |].
      rewrite map_app, concat_app. simpl. rewrite app_nil_r, Hsegs. done.
    + rewrite (Hempty eq_refl), app_nil_r in Hsegs.
      etrans; [apply (Hparts _ Hshape) |]. by rewrite Hsegs.
Qed.

(** X3.  A chunk that holds more than one segment has a text of at most
    1001 characters: the budget of 1000 is checked before the joining space
    is added.  Only a chunk of a single segment can be longer. *)
Theorem chunk_text_budget transcript segments chunk :
  chunk ∈ LLM._split_transcript transcript segments →
  (1 < length (ch_segments chunk))%nat →
  (String.length (ch_text chunk) ≤ 1001)%nat.
Proof.
  intros Hin Hmany.
  pose proof (split_chunks_shape transcript segments) as Hshape.
  rewrite Forall_forall in Hshape.
  destruct (Hshape chunk Hin) as [_ [Hone | Hfits]]; [lia | exact Hfits].
Qed.

Lemma chunk_text_budget_witness :
  (String.length (ch_text intro_chunk) ≤ 1001)%nat.
Proof.
  apply (chunk_text_budget EmptyString intro_segments intro_chunk).
  - vm_compute. left.
  - simpl. lia.
Defined.

(** ** Matching quotes to segments *)

Lemma sort_stable_ext {A} (b1 b2 : A → A → bool) l :
  (∀ x y, b1 x y = b2 x y) → sort_stable b1 l = sort_stable b2 l.
Proof.
  intros Hext. unfold sort_stable. induction l as [| x l IH]; simpl; [done |].
  rewrite IH. generalize (foldr (insert_stable b2) [] l). intros k.
  induction k as [| y k IHk]; simpl; [done |]. by rewrite Hext, IHk.
Qed.

Lemma StronglySorted_weaken {A} (R R' : A → A → Prop) l :
  (∀ a b, R a b → R' a b) → StronglySorted R l → StronglySorted R' l.
Proof.
  intros Himp. induction 1 as [| x l _ IH Hx]; constructor; [done |].
  eapply Forall_impl; [exact Hx | apply Himp].
Qed.

Lemma sort_asc_sorted {A} (key : A → Q) l :
  StronglySorted (λ a b, key a <= key b) (sort_asc key l).
Proof.
  assert (sort_asc key l = sort_desc (λ x, - key x) l) as ->.
  { apply sort_stable_ext. intros y x. unfold Num.ltb. f_equal.
    apply eq_true_iff_eq. rewrite !Qle_bool_iff. split; intros; lra. }
  eapply StronglySorted_weaken; [| apply sort_desc_sorted].
  unfold key_desc. intros a b Hab. simpl in Hab. lra.
Qed.

(** X4.  The segments matched to the key quotes are segments of the chunk.
    Without key quotes they are the first three segments (or all, if fewer).
    When a quote matches a segment, the result is not empty and ordered by
    start time, so that the window runs from the earliest matched start. *)
Theorem matching_segments_of_chunk key_quotes segments :
  (∀ s, s ∈ LLM._find_matching_segments key_quotes segments → s ∈ segments)
  ∧ LLM._find_matching_segments [] segments = take 3 segments
  ∧ (∀ quote s, quote ∈ key_quotes → s ∈ segments →
                LLM.quote_matches (Text.lower quote) s = true →
                LLM._find_matching_segments key_quotes segments ≠ []
                ∧ StronglySorted (λ a b, seg_start a <= seg_start b)
                    (LLM._find_matching_segments key_quotes segments)).
Proof.
  destruct (collect_matches_spec key_quotes segments) as [Hin Hhit].
  split; [| split].
  - apply Forall_forall. unfold LLM._find_matching_segments.
    destruct key_quotes as [| q quotes].
    { destruct (3 <=? length segments)%nat; apply Forall_forall; [| done].
      intros s Hs. eapply elem_of_sublist; [exact Hs | apply sublist_take]. }
    pose proof (sort_stable_Forall (λ y x, Num.ltb (seg_start y) (seg_start x))
                  _ _ Hin) as Hsorted.
    fold (sort_asc seg_start (LLM.collect_matches (q :: quotes) segments)) in Hsorted.
    destruct (sort_asc seg_start _) as [| m ms]; [| done].
    apply Forall_forall. intros s (p & -> & Hp)%list_elem_of_fmap.
    apply list_elem_of_In, filter_In in Hp as [Hp _]. apply list_elem_of_In in Hp.
    assert (Hall : Forall (λ p : Segment * nat, p.1 ∈ segments)
                     (sort_desc (λ p : Segment * nat, Num.of_nat p.2)
                        (map (λ segment, (segment,
                                LLM.word_overlap
                                  (LLM.to_set (Text.split (Text.lower
                                     (Text.join " " (q :: quotes))))) segment))
                             segments))).
    { apply sort_stable_Forall, Forall_fmap, Forall_forall. by intros s Hs. }
    rewrite Forall_forall in Hall. apply Hall.
    eapply elem_of_sublist; [exact Hp | apply sublist_take].
  - unfold LLM._find_matching_segments.
    destruct (3 <=? length segments)%nat eqn:Hlen; [done |].
    apply Nat.leb_gt in Hlen. by rewrite take_ge by lia.
  - intros quote s Hq Hs Hmatch.
    specialize (Hhit quote s Hq Hs Hmatch).
    unfold LLM._find_matching_segments.
    destruct key_quotes as [| q quotes]; [by apply elem_of_nil in Hq |].
    pose proof (sort_asc_sorted seg_start (LLM.collect_matches (q :: quotes) segments))
      as Hsorted.
    pose proof (sort_stable_length (λ y x, Num.ltb (seg_start y) (seg_start x))
                  (LLM.collect_matches (q :: quotes) segments)) as Hlen.
    fold (sort_asc seg_start (LLM.collect_matches (q :: quotes) segments)) in Hlen.
    destruct (sort_asc seg_start _) as [| m ms]; [| done].
    by destruct (LLM.collect_matches (q :: quotes) segments).
Qed.

Lemma matching_segments_of_chunk_witness :
  LLM._find_matching_segments ["secret"%string] intro_segments ≠ []
  ∧ StronglySorted (λ a b, seg_start a <= seg_start b)
      (LLM._find_matching_segments ["secret"%string] intro_segments).
Proof.
  apply (proj2 (proj2 (matching_segments_of_chunk ["secret"%string] intro_segments))
           "secret"%string
           (mkSegment 5 40 "you won't believe this secret nobody tells you")).
  - left.
  - right. left.
  - reflexivity.
Defined.

(** ** Window resolution *)

(** The two reported roundings, on the doubles of the decimal times: the
    span [70.5, 139.6] is cut to a window longer than the maximum of 65, and
    the span [66.7, 85.5] grows, unclamped, to a window shorter than the
    minimum of 25. *)
Example window_rounding :
  (let w := LLM.resolve_window default_config 0 10000
              (Float.round (705 # 10)) (Float.round (1396 # 10)) in
   w = (Float.round (7255 # 100), Float.round (13755 # 100))
   ∧ clip_duration_max default_config < Float.sub w.2 w.1)
  ∧ (let w := LLM.resolve_window default_config 0 10000
                (Float.round (667 # 10)) (Float.round (855 # 10)) in
     w = (Float.round (636 # 10), Float.round (886 # 10))
     ∧ Float.sub w.2 w.1 < clip_duration_min default_config).
Proof. vm_compute. repeat split. Qed.

(** X5.  A matched span that lies inside its chunk and whose computed
    duration is under the minimum is only ever widened: the resolved window
    contains the span and stays inside the chunk, and it is no longer than
    the minimum, up to the rounding of the arithmetic. *)
Theorem window_growth_contains_span cfg chunk_start chunk_end s e T :
  span_within T cfg s e →
  chunk_start <= s → e <= chunk_end →
  Float.sub e s < clip_duration_min cfg →
  let w := LLM.resolve_window cfg chunk_start chunk_end s e in
  chunk_start <= w.1 ∧ w.1 <= s ∧ e <= w.2 ∧ w.2 <= chunk_end
  ∧ w.2 - w.1 <= clip_duration_min cfg + window_tolerance T.
Proof.
  intros (HT & _ & Hmin & Hmax & Hs & He & Hds & Hde) Hcs Hce Hshort.
  destruct (resolve_window_cases cfg chunk_start chunk_end s e T HT Hs He Hmin Hmax)
    as (_ & Hgrow & _).
  cbv zeta in *. destruct (Hgrow Hshort) as (grow & -> & Hg & Hlo & Hhi).
  assert (Hpos : 0 <= grow).
  { rewrite Hg. unfold Float.div, Float.sub. apply round_nonneg.
    apply Qle_shift_div_l; [lra |]. rewrite Qmult_0_l. apply round_nonneg.
    unfold Float.sub in Hshort. lra. }
  assert (Ha : Float.sub s grow <= s).
  { unfold is_double in Hds. rewrite <- Hds at 2. apply round_mono. lra. }
  assert (Hb : e <= Float.add e grow).
  { unfold is_double in Hde. rewrite <- Hde at 1. apply round_mono. lra. }
  cbn [fst snd].
  destruct (py_max_spec chunk_start (Float.sub s grow)) as [[Hlt ->] | [Hle ->]];
  destruct (py_min_spec chunk_end (Float.add e grow)) as [[Hlt' ->] | [Hle' ->]];
  repeat split; lra.
Qed.

(** The span [497.6, 520.28] in a chunk from 0 to 10000. *)
Lemma window_growth_contains_span_witness :
  let s := Float.round (4976 # 10) in
  let e := Float.round (52028 # 100) in
  let w := LLM.resolve_window default_config 0 10000 s e in
  0 <= w.1 ∧ w.1 <= s ∧ e <= w.2 ∧ w.2 <= 10000
  ∧ w.2 - w.1 <= clip_duration_min default_config + window_tolerance 10000.
Proof.
  apply (window_growth_contains_span default_config 0 10000
           (Float.round (4976 # 10)) (Float.round (52028 # 100)) 10000).
  - unfold span_within, is_double.
    repeat split; try (vm_compute; reflexivity); vm_compute; discriminate.
  - vm_compute. discriminate.
  - vm_compute. discriminate.
  - vm_compute. reflexivity.
Defined.

(** X6.  A span whose computed duration is within the limits is returned
    as it is; a span longer than the maximum (and not shorter than the
    minimum) is cut on both sides, whatever the chunk: the window lies inside
    the span, has the maximum as its duration and keeps the midpoint, both up
    to the rounding of the arithmetic. *)
Theorem window_trim_centered cfg chunk_start chunk_end s e T :
  span_within T cfg s e →
  clip_duration_min cfg <= Float.sub e s →
  let w := LLM.resolve_window cfg chunk_start chunk_end s e in
  (Float.sub e s <= clip_duration_max cfg → w = (s, e))
  ∧ (clip_duration_max cfg < Float.sub e s →
     Qabs (w.2 - w.1 - clip_duration_max cfg) <= window_tolerance T
     ∧ Qabs (w.1 + w.2 - (s + e)) <= window_tolerance T
     ∧ s <= w.1 ∧ w.2 <= e).
Proof.
  intros (HT & _ & Hmin & Hmax & Hs & He & Hds & Hde) Hlong.
  destruct (resolve_window_cases cfg chunk_start chunk_end s e T HT Hs He Hmin Hmax)
    as (_ & _ & Hcut & Hkeep).
  cbv zeta in *. split; [by apply Hkeep |].
  intros Hover. destruct (Hcut Hlong Hover) as (Hlo & Hhi & Hmlo & Hmhi).
  split; [apply Qabs_Qle_condition; split; lra |].
  split; [apply Qabs_Qle_condition; split; lra |].
  unfold LLM.resolve_window.
  apply ltb_ge in Hlong as Hcmp. rewrite Hcmp.
  apply ltb_lt in Hover as Hcmp'. rewrite Hcmp'. cbn [fst snd].
  assert (Hpos : 0 <= Float.div (Float.sub (Float.sub e s) (clip_duration_max cfg)) 2).
  { unfold Float.div at 1. apply round_nonneg.
    apply Qle_shift_div_l; [lra |]. rewrite Qmult_0_l.
    unfold Float.sub at 1. apply round_nonneg. lra. }
  set (cut := Float.div _ 2) in *. unfold is_double in Hds, Hde. split.
  - rewrite <- Hds at 1. apply round_mono. lra.
  - rewrite <- Hde at 2. apply round_mono. lra.
Qed.

(** The span [70.5, 139.6]. *)
Lemma window_trim_centered_witness :
  let s := Float.round (705 # 10) in
  let e := Float.round (1396 # 10) in
  let w := LLM.resolve_window default_config 0 10000 s e in
  (Float.sub e s <= clip_duration_max default_config → w = (s, e))
  ∧ (clip_duration_max default_config < Float.sub e s →
     Qabs (w.2 - w.1 - clip_duration_max default_config) <= window_tolerance 1000
     ∧ Qabs (w.1 + w.2 - (s + e)) <= window_tolerance 1000
     ∧ s <= w.1 ∧ w.2 <= e).
Proof.
  apply (window_trim_centered default_config 0 10000
           (Float.round (705 # 10)) (Float.round (1396 # 10)) 1000).
  - unfold span_within, is_double.
    repeat split; try (vm_compute; reflexivity); vm_compute; discriminate.
  - vm_compute. discriminate.
Defined.

(** ** Locating the JSON object in an answer *)

Lemma from_first_Some c s t :
  LLM.from_first c s = Some t →
  ∃ pre rest, s = pre +:+ t ∧ t = String c rest ∧ LLM.from_first c pre = None.
Proof.
  revert t. induction s as [| d s IH]; intros t; simpl; [done |].
  destruct (Ascii.eqb c d) eqn:Hcd.
  - intros [= <-]. apply Ascii.eqb_eq in Hcd as <-.
    by exists EmptyString, s.
  - intros Ht. destruct (IH t Ht) as (pre & rest & -> & -> & Hpre).
    exists (String d pre), rest. simpl. by rewrite Hcd.
Qed.

Lemma rev_app_append s1 s2 : String.rev_app s1 s2 = String.rev s1 +:+ s2.
Proof.
  unfold String.rev. revert s2.
  induction s1 as [| a s1 IH]; intros s2; simpl; [done |].
  rewrite IH, (IH (String a EmptyString)), append_assoc. done.
Qed.

Lemma rev_cons a s : String.rev (String a s) = String.rev s +:+ String a EmptyString.
Proof. unfold String.rev at 1. simpl. apply rev_app_append. Qed.

Lemma rev_append s1 s2 : String.rev (s1 +:+ s2) = String.rev s2 +:+ String.rev s1.
Proof.
  induction s1 as [| a s1 IH].
  - simpl. change (String.rev EmptyString) with EmptyString.
    by rewrite append_empty_r.
  - rewrite append_cons, !rev_cons, IH, append_assoc. done.
Qed.

Lemma rev_involutive s : String.rev (String.rev s) = s.
Proof.
  induction s as [| a s IH]; [done |].
  rewrite rev_cons, rev_append, IH. done.
Qed.

(** X7.  When a JSON object is located in an answer, it is a part of the
    answer that starts with an opening brace, the first one of the answer,
    and ends with a closing brace. *)
Theorem json_match_is_braced response matched :
  LLM.json_match response = Some matched →
  ∃ pre body post,
    response = pre +:+ matched +:+ post
    ∧ LLM.from_first "{" pre = None
    ∧ (∃ rest, matched = String "{" rest)
    ∧ matched = body +:+ "}".
Proof.
  unfold LLM.json_match. intros Hmatch.
  destruct (LLM.from_first "{" response) as [opened |] eqn:Hopen; [| done].
  simpl in Hmatch.
  destruct (LLM.from_first "}" (String.rev opened)) as [closed |] eqn:Hclose; [| done].
  injection Hmatch as <-.
  apply from_first_Some in Hopen as (pre & rest & -> & Hopened & Hpre).
  apply from_first_Some in Hclose as (pre' & rest' & Hrev & -> & _).
  assert (Hsplit : opened = String.rev (String "}" rest') +:+ String.rev pre').
  { by rewrite <- rev_append, <- Hrev, rev_involutive. }
  exists pre, (String.rev rest'), (String.rev pre').
  split; [by rewrite <- Hsplit |]. split; [done |].
  rewrite rev_cons in Hsplit |- *. split; [| done].
  rewrite Hopened in Hsplit.
  destruct (String.rev rest') as [| x r]; simpl in Hsplit.
  - injection Hsplit as Hx _. discriminate.
  - injection Hsplit as <- _. by eexists.
Qed.

Lemma json_match_is_braced_witness :
  ∃ pre body post,
    ("Here is my analysis: " +:+ secret_json) = pre +:+ secret_json +:+ post
    ∧ LLM.from_first "{" pre = None
    ∧ (∃ rest, secret_json = String "{" rest)
    ∧ secret_json = body +:+ "}".
Proof.
  apply (json_match_is_braced ("Here is my analysis: " +:+ secret_json) secret_json).
  vm_compute. reflexivity.
Defined.

(** ** The fallback analysis *)

Lemma fallback_emotion_fold_bounds text_lower entries st :
  let st' := foldl (LLM.fallback_emotion_step text_lower) st entries in
  st.1 <= st'.1 ∧ st'.1 <= st.1 + (3 # 10) * Num.of_nat (length entries).
Proof.
  revert st. induction entries as [| entry entries IH]; intros st.
  - cbn [foldl length]. change (Num.of_nat 0) with 0. split; lra.
  - cbn [foldl length].
    destruct (IH (LLM.fallback_emotion_step text_lower st entry)) as [Hlo Hhi].
    assert (Num.of_nat (S (length entries)) == Num.of_nat (length entries) + 1) as Hsucc.
    { unfold Num.of_nat. rewrite Nat2Z.inj_succ, <- Z.add_1_r, inject_Z_plus. done. }
    assert (st.1 <= (LLM.fallback_emotion_step text_lower st entry).1
            ∧ (LLM.fallback_emotion_step text_lower st entry).1 <= st.1 + (3 # 10))
      as [Hstep_lo Hstep_hi].
    { unfold LLM.fallback_emotion_step. destruct (LLM.any_in _ _); simpl; lra. }
    split; lra.
Qed.

Lemma fallback_score_bounds segment :
  0 <= (LLM.fallback_score segment).1 ∧ (LLM.fallback_score segment).1 <= 14 # 10.
Proof.
  unfold LLM.fallback_score.
  pose proof (fallback_emotion_fold_bounds (Text.lower (seg_text segment))
                LLM.fallback_emotion_keywords (0, [])) as Hfold.
  cbv zeta in Hfold.
  set (st := foldl _ _ _) in *.
  change (Num.of_nat (length LLM.fallback_emotion_keywords)) with (3 # 1) in Hfold.
  simpl in Hfold |- *.
  repeat case_match; lra.
Qed.

Lemma fallback_highlight_spec segments i segment h :
  LLM.fallback_highlight segments i segment = Some (Some h) →
  ∃ c first final,
    confidence h = Some c ∧ 4 # 10 <= c ∧ c <= 14 # 10
    ∧ segments !! (i - 1)%nat = Some first
    ∧ segments !! Nat.min (length segments - 1) (i + 2) = Some final
    ∧ start_time h = seg_start first ∧ end_time h = seg_end final.
Proof.
  unfold LLM.fallback_highlight.
  pose proof (fallback_score_bounds segment) as [_ Hmax].
  destruct (LLM.fallback_score segment) as [score emos]. simpl in Hmax.
  destruct (Num.leb (4 # 10) score) eqn:Hmin; [| done].
  apply leb_le in Hmin.
  destruct (segments !! (i - 1)%nat) as [first |]; [| done]. simpl.
  destruct (segments !! Nat.min _ _) as [final |]; [| done]. simpl.
  intros [= <-]. by exists score, first, final.
Qed.

(** X9.  The fallback analysis always returns, with at most three
    highlights; each has a confidence between 0.4 and 1.4 (the sum of the
    heuristics is not clamped to 1) and runs from the start of a segment of
    the transcript to the end of a later or equal one. *)
Theorem fallback_analysis_bounds full_transcript segments :
  ∃ highlights,
    LLM._fallback_analysis full_transcript segments = Some highlights
    ∧ (length highlights ≤ 3)%nat
    ∧ Forall (λ h, ∃ c i j first final,
                confidence h = Some c ∧ 4 # 10 <= c ∧ c <= 14 # 10
                ∧ (i ≤ j)%nat
                ∧ segments !! i = Some first ∧ segments !! j = Some final
                ∧ start_time h = seg_start first ∧ end_time h = seg_end final)
        highlights.
Proof.
  destruct (fallback_analysis_total full_transcript segments) as (hs & Hrun & Hlen).
  exists hs. split; [done |]. split; [done |].
  unfold LLM._fallback_analysis in Hrun.
  destruct (mapM _ _) as [found |] eqn:Hfound; [| done].
  simpl in Hrun. injection Hrun as <-.
  apply mapM_Some_1 in Hfound.
  apply Forall_take, Forall_forall.
  intros h (o & Ho & Hid)%list_elem_of_omap. simpl in Hid. subst o.
  apply list_elem_of_lookup in Ho as [k Hk].
  destruct (Forall2_lookup_r _ _ _ _ _ Hfound Hk) as ([i s] & Hp & Hbuilt).
  simpl in Hbuilt.
  rewrite list_lookup_imap in Hp.
  destruct (segments !! k) as [s' |] eqn:Hs; [| done]. injection Hp as <- <-.
  destruct (fallback_highlight_spec _ _ _ _ Hbuilt)
    as (c & first & final & Hc & Hlo & Hhi & Hfirst & Hfinal & Hst & Hen).
  apply lookup_lt_Some in Hs.
  exists c, (k - 1)%nat, (Nat.min (length segments - 1) (k + 2)), first, final.
  repeat split; try done. lia.
Qed.

(** ** Merging: positions, confidence and sources *)

Lemma merged_from_refl e : merged_from e e.
Proof. split; [lra | by left]. Qed.

Lemma merged_from_trans e1 e2 e3 :
  merged_from e1 e2 → merged_from e2 e3 → merged_from e1 e3.
Proof.
  intros [H12 Hs12] [H23 Hs23]. split; [lra |].
  destruct Hs23 as [-> | Hs23]; [done | by right].
Qed.

Lemma merge_pair_from candidate existing :
  merged_from existing (Analyzer.merge_pair candidate existing).
Proof.
  unfold Analyzer.merge_pair.
  destruct (Num.ltb _ _) eqn:Hwins; [| apply merged_from_refl].
  apply ltb_lt in Hwins. split; [| by right].
  unfold get_confidence in *. simpl.
  destruct (confidence candidate); simpl in *; lra.
Qed.

Lemma merge_existing_from candidate entries merged :
  Analyzer.merge_existing candidate entries = Some merged →
  Forall2 merged_from entries merged.
Proof.
  revert merged. induction entries as [| e entries IH]; intros merged; simpl; [done |].
  destruct (Analyzer.same_moment candidate e).
  - intros [= <-]. constructor; [apply merge_pair_from |].
    apply Forall2_same_length_lookup. split; [done |].
    intros i x y Hx Hy. assert (x = y) as -> by congruence. apply merged_from_refl.
  - destruct (Analyzer.merge_existing candidate entries) as [rest |]; [| done].
    simpl. intros [= <-]. constructor; [apply merged_from_refl | by apply IH].
Qed.

Lemma Forall2_merged_from_refl entries : Forall2 merged_from entries entries.
Proof. induction entries; constructor; [apply merged_from_refl | done]. Qed.

Lemma Forall2_merged_from_trans l1 l2 l3 :
  Forall2 merged_from l1 l2 → Forall2 merged_from l2 l3 → Forall2 merged_from l1 l3.
Proof.
  intros H12. revert l3. induction H12 as [| x y l1 l2 Hxy _ IH]; intros l3 H23.
  - by apply Forall2_nil_inv_l in H23 as ->.
  - apply Forall2_cons_inv_l in H23 as (z & l3' & Hyz & H23 & ->).
    constructor; [by eapply merged_from_trans | by apply IH].
Qed.

(** The merge of a list of candidates: the accepted entries keep their
    positions, and the entries added after them come from the candidates. *)
Lemma merge_fold_spec candidates entries :
  ∃ merged added,
    foldl Analyzer.add_llm_highlight entries candidates = merged ++ added
    ∧ Forall2 merged_from entries merged
    ∧ (length added ≤ length candidates)%nat
    ∧ Forall (λ h, source h = Some llm ∨ source h = Some combined) added.
Proof.
  revert entries. induction candidates as [| c candidates IH]; intros entries; simpl.
  - exists entries, []. rewrite app_nil_r.
    split; [done |]. split; [apply Forall2_merged_from_refl |]. split; [done | constructor].
  - assert (∃ merged1 added1,
              Analyzer.add_llm_highlight entries c = merged1 ++ added1
              ∧ Forall2 merged_from entries merged1
              ∧ (length added1 ≤ 1)%nat
              ∧ Forall (λ h, source h = Some llm ∨ source h = Some combined) added1)
      as (merged1 & added1 & -> & Hmerged1 & Hlen1 & Hadded1).
    { unfold Analyzer.add_llm_highlight.
      destruct (Analyzer.merge_existing c entries) as [merged |] eqn:Hmerge.
      - exists merged, []. rewrite app_nil_r.
        split; [done |]. split; [by eapply merge_existing_from |].
        split; [simpl; lia | constructor].
      - exists entries, [set_source llm c].
        split; [done |]. split; [apply Forall2_merged_from_refl |].
        split; [done |]. constructor; [by left | constructor]. }
    destruct (IH (merged1 ++ added1)) as (merged & added & -> & Hmerged & Hlen & Hadded).
    apply Forall2_app_inv_l in Hmerged as (m1 & a1 & Hm1 & Ha1 & ->).
    exists m1, (a1 ++ added). rewrite <- app_assoc.
    split; [done |]. split; [by eapply Forall2_merged_from_trans |]. split.
    + rewrite length_app, <- (Forall2_length _ _ _ Ha1). lia.
    + apply Forall_app. split; [| done].
      clear -Ha1 Hadded1. induction Ha1 as [| x y l k [_ Hxy] _ IHa]; [constructor |].
      apply Forall_cons in Hadded1 as [Hx Hl]. constructor; [| by apply IHa].
      destruct Hxy as [-> | Hy]; [done | by right].
Qed.

(** X11.  Merging semantic candidates never removes or moves an accepted
    entry and never lowers its confidence: each of them stays at its
    position, unchanged or replaced by a candidate marked [combined]; at
    most one entry is added per candidate. *)
Theorem merge_keeps_positions entries candidates :
  let result := foldl Analyzer.add_llm_highlight entries candidates in
  (length entries ≤ length result ≤ length entries + length candidates)%nat
  ∧ ∀ i e, entries !! i = Some e →
           ∃ e', result !! i = Some e'
                 ∧ get_confidence e <= get_confidence e'
                 ∧ (e' = e ∨ source e' = Some combined).
Proof.
  intros result. unfold result.
  destruct (merge_fold_spec candidates entries)
    as (merged & added & -> & Hmerged & Hlen & _).
  pose proof (Forall2_length _ _ _ Hmerged) as Hsame.
  split; [rewrite length_app; lia |].
  intros i e Hi.
  destruct (Forall2_lookup_l _ _ _ _ _ Hmerged Hi) as (e' & He' & Hconf & Hsrc).
  exists e'. split; [| done]. by apply lookup_app_l_Some.
Qed.

Lemma merge_keeps_positions_witness :
  ∃ e', foldl Analyzer.add_llm_highlight [rule_10_40] [llm_12_42; long_around] !! 0%nat
        = Some e'
        ∧ get_confidence rule_10_40 <= get_confidence e'
        ∧ (e' = rule_10_40 ∨ source e' = Some combined).
Proof.
  apply (merge_keeps_positions [rule_10_40] [llm_12_42; long_around]).
  reflexivity.
Defined.

Lemma rule_based_highlight_source cfg original segment h :
  Analyzer.rule_based_highlight cfg original segment = Some h →
  source h = Some rule_based.
Proof.
  unfold Analyzer.rule_based_highlight.
  destruct (Analyzer.extend_segment cfg original segment) as [[[s e] t] |]; [| done].
  simpl. destruct (original !! s); [| done]. simpl.
  destruct (original !! e); [| done]. simpl. by intros [= <-].
Qed.

(** X12.  In the list that [_combine_analyses] returns, the first entries,
    one per scored segment that reaches the minimum score, have source
    [rule_based] or [combined]; the entries after them, at most one per
    semantic candidate, have source [llm] or [combined].  No entry is left
    without a source. *)
Theorem combined_sources cfg scored candidates original result :
  Analyzer._combine_analyses cfg scored candidates original = Some result →
  let n := length (List.filter (Analyzer.reaches_min_score cfg) scored) in
  (n ≤ length result ≤ n + length candidates)%nat
  ∧ Forall (λ h, source h = Some rule_based ∨ source h = Some combined) (take n result)
  ∧ Forall (λ h, source h = Some llm ∨ source h = Some combined) (drop n result).
Proof.
  intros Hrun n.
  unfold Analyzer._combine_analyses, Analyzer.rule_based_highlights in Hrun.
  destruct (mapM _ _) as [entries |] eqn:Hentries; [| done]. simpl in Hrun.
  injection Hrun as <-. apply mapM_Some_1 in Hentries.
  pose proof (Forall2_length _ _ _ Hentries) as Hn. fold n in Hn.
  destruct (merge_fold_spec candidates entries)
    as (merged & added & -> & Hmerged & Hlen & Hadded).
  pose proof (Forall2_length _ _ _ Hmerged) as Hsame.
  split; [rewrite length_app; lia |].
  rewrite take_app_length' by lia. rewrite drop_app_length' by lia.
  split; [| done].
  apply Forall_forall. intros h' Hh'.
  apply list_elem_of_lookup in Hh' as [i Hi].
  destruct (Forall2_lookup_r _ _ _ _ _ Hmerged Hi) as (h & Hh & _ & Hsrc).
  destruct Hsrc as [-> | Hsrc]; [| by right]. left.
  destruct (Forall2_lookup_r _ _ _ _ _ Hentries Hh) as (s & _ & Hbuilt).
  by eapply rule_based_highlight_source.
Qed.

Lemma combined_sources_witness :
  let n := length (List.filter (Analyzer.reaches_min_score default_config)
                     (Scorer._score_segments default_config intro_segments)) in
  ∃ result,
    Analyzer._combine_analyses default_config
      (Scorer._score_segments default_config intro_segments) [long_around] intro_segments
    = Some result
    ∧ (n ≤ length result ≤ n + 1)%nat
    ∧ Forall (λ h, source h = Some rule_based ∨ source h = Some combined) (take n result)
    ∧ Forall (λ h, source h = Some llm ∨ source h = Some combined) (drop n result).
Proof.
  intros n. eexists. split; [vm_compute; reflexivity |].
  apply (combined_sources default_config
           (Scorer._score_segments default_config intro_segments)
           [long_around] intro_segments).
  vm_compute. reflexivity.
Defined.

(** ** Ranker / filter: shape of the result and the one way to fail *)

(** X13.  What the filter returns holds at most five highlights, all taken
    from its input, each with a confidence of at least 0.3, in order of
    decreasing confidence. *)
Theorem filter_result_shape highlights final :
  Analyzer._filter_highlights highlights = Some final →
  (length final ≤ 5)%nat
  ∧ Forall (λ h, h ∈ highlights ∧ 3 # 10 <= get_confidence h) final
  ∧ StronglySorted (λ a b, get_confidence b <= get_confidence a) final.
Proof.
  intros Hrun.
  destruct (filter_highlights_spec _ _ Hrun) as (Hsub & _ & Hsorted & Hlen & Hconf).
  split; [done |]. split; [| done].
  apply Forall_forall. intros h Hh. split.
  - assert (Hall : Forall (λ x, x ∈ highlights) (sort_desc get_confidence highlights)).
    { apply sort_stable_Forall, Forall_forall. auto. }
    rewrite Forall_forall in Hall. apply Hall. by eapply elem_of_sublist.
  - rewrite Forall_forall in Hconf. by apply leb_le, Hconf.
Qed.

Lemma filter_result_shape_witness :
  (length [short_inside; long_around] ≤ 5)%nat
  ∧ Forall (λ h, h ∈ [long_around; short_inside] ∧ 3 # 10 <= get_confidence h)
      [short_inside; long_around]
  ∧ StronglySorted (λ a b, get_confidence b <= get_confidence a)
      [short_inside; long_around].
Proof.
  apply (filter_result_shape [long_around; short_inside]).
  vm_compute. reflexivity.
Defined.

Lemma overlap_found_zero highlight existing filtered :
  Analyzer.duration highlight == 0 →
  Analyzer.overlap_found highlight (existing :: filtered) = None.
Proof.
  intros Hzero. simpl. unfold Analyzer.overlap_ratio, Num.py_div.
  apply Qeq_bool_iff in Hzero. by rewrite Hzero.
Qed.

Lemma fold_filter_step_raises highlights filtered :
  filtered ≠ [] →
  foldl Analyzer.filter_step (Some filtered) highlights = None
  ↔ Exists (λ h, Analyzer.duration h == 0) highlights.
Proof.
  revert filtered.
  induction highlights as [| h highlights IH]; intros filtered Hne; simpl.
  - split; [done | by intros ?%Exists_nil].
  - destruct filtered as [| existing filtered]; [done |].
    destruct (Qeq_dec (Analyzer.duration h) 0) as [Hzero | Hpos].
    + rewrite (overlap_found_zero _ _ _ Hzero). simpl.
      rewrite fold_filter_step_None. split; [by left | done].
    + destruct (overlap_found_total h (existing :: filtered) Hpos) as [found Hfound].
      rewrite Hfound. simpl. rewrite Exists_cons.
      destruct found; (rewrite IH by done); tauto.
Qed.

(** X14.  The filter fails in exactly one way: it raises (a division by
    zero) if and only if, once the highlights are sorted by decreasing
    confidence, a highlight other than the first has a duration of zero. *)
Theorem filter_raises_iff highlights :
  Analyzer._filter_highlights highlights = None
  ↔ Exists (λ h, Analyzer.duration h == 0)
           (tail (sort_desc get_confidence highlights)).
Proof.
  unfold Analyzer._filter_highlights, Analyzer.remove_overlaps.
  destruct (sort_desc get_confidence highlights) as [| top others]; simpl.
  - split; [done | by intros ?%Exists_nil].
  - rewrite <- (fold_filter_step_raises others [top]) by done.
    destruct (foldl Analyzer.filter_step (Some [top]) others); simpl; split; done.
Qed.

(** ** Enrichment *)

Lemma generate_hashtags_NoDup cfg txt emos :
  NoDup (Analyzer._generate_hashtags cfg txt emos).
Proof.
  pose proof (NoDup_dict_fromkeys (Analyzer.raw_hashtags txt emos)) as Hdistinct.
  unfold Analyzer._generate_hashtags. destruct (_ <? _)%Z.
  - destruct (slice_to_take (hashtag_max_count cfg)
                (Analyzer.dict_fromkeys (Analyzer.raw_hashtags txt emos))) as [n ->].
    eapply sublist_NoDup; [done | apply sublist_take].
  - destruct (_ <? _)%Z; [by apply pad_NoDup | done].
Qed.

(** X15.  With a maximum count of at least three, the hashtags of a
    highlight always start with the three base tags, in their order. *)
Theorem hashtags_start_with_base cfg txt emos :
  (3 ≤ hashtag_max_count cfg)%Z →
  take 3 (Analyzer._generate_hashtags cfg txt emos) = Analyzer.base_tags.
Proof.
  intros Hmax. unfold Analyzer._generate_hashtags.
  destruct (dict_fromkeys_base txt emos) as [more ->].
  destruct (_ <? _)%Z.
  - unfold Analyzer.slice_to.
    destruct (_ <? 0)%Z eqn:Hneg; [apply Z.ltb_lt in Hneg; lia |].
    rewrite take_take, Nat.min_l by lia. by apply take_app_length'.
  - destruct (_ <? _)%Z; [| by apply take_app_length'].
    destruct (pad_extends (hashtag_min_count cfg) Analyzer.generic_tags
                (Analyzer.base_tags ++ more)) as [added ->].
    rewrite <- app_assoc. by apply take_app_length'.
Qed.

Lemma hashtags_start_with_base_witness :
  take 3 (Analyzer._generate_hashtags default_config "money tips" ["funny"%string])
  = Analyzer.base_tags.
Proof.
  apply (hashtags_start_with_base default_config "money tips" ["funny"%string]).
  simpl. lia.
Defined.

Lemma find_first {A} (p : A → bool) before x after :
  (∀ y, y ∈ before → p y = false) → p x = true →
  List.find p (before ++ x :: after) = Some x.
Proof.
  intros Hbefore Hx. induction before as [| y before IH]; simpl.
  - by rewrite Hx.
  - rewrite (Hbefore y) by left. apply IH. intros z Hz. apply Hbefore. by right.
Qed.

(** X16.  The primary emotion of a highlight without emotions is
    [neutral]; otherwise it is one of the highlight's emotions, namely the
    first of funny, shocking, inspirational, controversial, educational that
    is among them. *)
Theorem primary_emotion_priority emotions :
  (emotions = [] → Analyzer._get_primary_emotion emotions = "neutral"%string)
  ∧ (emotions ≠ [] → Analyzer._get_primary_emotion emotions ∈ emotions)
  ∧ (∀ before emo after,
       Analyzer.emotion_priority = before ++ emo :: after →
       emo ∈ emotions → (∀ p, p ∈ before → p ∉ emotions) →
       Analyzer._get_primary_emotion emotions = emo).
Proof.
  split; [by intros -> |]. split.
  - intros Hne. unfold Analyzer._get_primary_emotion.
    destruct emotions as [| first rest]; [done |].
    destruct (List.find _ Analyzer.emotion_priority) as [emo |] eqn:Hfind; simpl.
    + apply find_some in Hfind as [_ Hmem]. by apply mem_true in Hmem.
    + by left.
  - intros before emo after Hsplit Hin Hbefore.
    unfold Analyzer._get_primary_emotion.
    destruct emotions as [| first rest]; [by apply elem_of_nil in Hin |].
    rewrite Hsplit, find_first; [done | | by apply mem_true].
    intros p Hp. by apply mem_false, Hbefore.
Qed.

Lemma primary_emotion_priority_witness :
  Analyzer._get_primary_emotion ["educational"; "shocking"]%string = "shocking"%string.
Proof.
  apply (proj2 (proj2 (primary_emotion_priority ["educational"; "shocking"]%string))
           ["funny"%string] "shocking"%string
           ["inspirational"; "controversial"; "educational"]%string).
  - reflexivity.
  - right. left.
  - intros p ->%list_elem_of_singleton Hin.
    apply mem_true in Hin. vm_compute in Hin. discriminate.
Defined.

Lemma length_substring_le n m s : (String.length (String.substring n m s) ≤ m)%nat.
Proof.
  revert n m. induction s as [| c s IH]; intros n m.
  - destruct n, m; simpl; lia.
  - destruct n as [| n]; simpl.
    + destruct m as [| m]; simpl; [lia |]. specialize (IH 0%nat m). lia.
    + apply IH.
Qed.

(** X17.  A description is the stripped text cut to at most 150 characters,
    followed, when the video has a title, by two line breaks, "From: " and
    the title: its length is at most 150, plus 8 and the length of the
    title. *)
Theorem description_length_bound txt meta :
  let suffix :=
    match vm_title meta with
    | Some t => if LLM.nonempty t then (8 + String.length t)%nat else 0%nat
    | None => 0%nat
    end in
  (String.length (Analyzer._generate_description txt meta) ≤ 150 + suffix)%nat.
Proof.
  unfold Analyzer._generate_description.
  set (body := if (150 <? String.length (Text.strip txt))%nat
               then Text.take 147 (Text.strip txt) +:+ "..." else Text.strip txt).
  assert (Hbody : (String.length body ≤ 150)%nat).
  { unfold body. destruct (150 <? _)%nat eqn:Hlong.
    - rewrite length_append. unfold Text.take.
      pose proof (length_substring_le 0 147 (Text.strip txt)). simpl. lia.
    - by apply Nat.ltb_ge in Hlong. }
  destruct (vm_title meta) as [t |]; simpl; [| lia].
  destruct (LLM.nonempty t); [| lia].
  rewrite !length_append. simpl. lia.
Qed.

(** ** The clips that [find_highlights] returns *)

Lemma find_highlights_body_Some cfg ext transcript meta final :
  Analyzer.find_highlights_body cfg ext transcript meta = Some final →
  final = []
  ∨ ∃ combined_highlights filtered,
      Analyzer._filter_highlights combined_highlights = Some filtered
      ∧ final = Analyzer._enrich_highlights cfg ext filtered meta.
Proof.
  unfold Analyzer.find_highlights_body.
  destruct (default [] (tr_segments transcript)) as [| s segments];
    [intros [= <-]; by left |].
  destruct (tr_text transcript) as [full_text |]; [| done]. simpl.
  destruct (LLM.analyze_content _ _ _ _ _) as [llm_highlights |]; [| done]. simpl.
  destruct (Analyzer._combine_analyses _ _ _ _) as [combined_highlights |]; [| done].
  simpl.
  destruct (Analyzer._filter_highlights combined_highlights) as [filtered |] eqn:Hfilter;
    [| done].
  simpl. intros [= <-]. right. by exists combined_highlights, filtered.
Qed.

(** X18.  [find_highlights] returns at most five clips; the clip at
    position i is numbered i + 1, its engagement score is the confidence of
    its highlight and at least 0.3, and its hashtags hold no duplicate. *)
Theorem find_highlights_clips cfg ext transcript meta :
  let clips := Analyzer.find_highlights cfg ext transcript meta in
  (length clips ≤ 5)%nat
  ∧ ∀ i clip, clips !! i = Some clip →
      en_clip_number clip = (i + 1)%nat
      ∧ confidence (en_highlight clip) = Some (en_engagement_score clip)
      ∧ 3 # 10 <= en_engagement_score clip
      ∧ NoDup (en_hashtags clip).
Proof.
  intros clips. unfold clips, Analyzer.find_highlights.
  destruct (Analyzer.find_highlights_body cfg ext transcript meta) as [final |] eqn:Hbody;
    [| split; [simpl; lia | by intros i clip ?]].
  apply find_highlights_body_Some in Hbody
    as [-> | (combined_highlights & filtered & Hfilter & ->)];
    [split; [simpl; lia | by intros i clip ?] |].
  destruct (filter_highlights_spec _ _ Hfilter) as (_ & _ & _ & Hlen & Hconf).
  unfold Analyzer._enrich_highlights. rewrite length_imap. split; [done |].
  intros i clip Hclip. rewrite list_lookup_imap in Hclip.
  destruct (filtered !! i) as [h |] eqn:Hh; [| done]. injection Hclip as <-.
  simpl. split; [done |].
  rewrite Forall_forall in Hconf.
  assert (Hc : Num.leb Analyzer.min_confidence (get_confidence h) = true)
    by (apply Hconf; by eapply list_elem_of_lookup_2).
  apply leb_le in Hc. unfold get_confidence, Analyzer.min_confidence in Hc.
  destruct (confidence h) as [c |]; simpl in *.
  - split; [done |]. split; [done | apply generate_hashtags_NoDup].
  - lra.
Qed.

Lemma find_highlights_clips_witness :
  ∃ clip,
    Analyzer.find_highlights default_config no_model intro_transcript no_metadata !! 0%nat
    = Some clip
    ∧ en_clip_number clip = (0 + 1)%nat
    ∧ confidence (en_highlight clip) = Some (en_engagement_score clip)
    ∧ 3 # 10 <= en_engagement_score clip
    ∧ NoDup (en_hashtags clip).
Proof.
  eexists. split; [vm_compute; reflexivity |].
  apply (find_highlights_clips default_config no_model intro_transcript no_metadata).
  vm_compute. reflexivity.
Defined.

(** ** Configuration store *)

Lemma item_assign_eq k v items :
  Settings.item k (Settings.assign k v items) = Some v.
Proof.
  induction items as [| [k' v'] items IH]; simpl.
  - by rewrite String.eqb_refl.
  - destruct (String.eqb k k') eqn:Hk; simpl; rewrite Hk; [done | exact IH].
Qed.

Lemma set_path_nested k k2 keys value items :
  Settings.set_path (k :: k2 :: keys) value (Settings.Mapping items)
  = child' ← Settings.set_path (k2 :: keys) value
               (default (Settings.Mapping []) (Settings.item k items));
    Some (Settings.Mapping (Settings.assign k child' items)).
Proof. reflexivity. Qed.

Lemma set_path_descend keys value config config' :
  Settings.set_path keys value config = Some config' →
  Settings.descend keys config' = Some value.
Proof.
  revert config config'. induction keys as [| k keys IH]; intros config config'.
  - by destruct config.
  - destruct config as [items |]; [| done]. simpl.
    destruct keys as [| k2 keys].
    + intros [= <-]. simpl. by rewrite item_assign_eq.
    + destruct (Settings.set_path (k2 :: keys) value _) as [child' |] eqn:Hchild; [| done].
      simpl. intros [= <-]. cbn [Settings.descend]. rewrite item_assign_eq. simpl.
      by eapply IH.
Qed.

(** X19.  A value that [Config.set] has stored under a dotted key is what
    [Config.get] returns for that key, whatever the default. *)
Theorem config_set_get config key value config' default_value :
  Settings.set config key value = Some config' →
  Settings.get config' key default_value = value.
Proof.
  unfold Settings.set, Settings.get. intros Hset.
  by rewrite (set_path_descend _ _ _ _ Hset).
Qed.

Lemma config_set_get_witness :
  ∃ config',
    Settings.set video_settings "video.output.format" (Settings.Scalar "mp4") = Some config'
    ∧ Settings.get config' "video.output.format" (Settings.Scalar "none")
      = Settings.Scalar "mp4".
Proof.
  eexists. split; [vm_compute; reflexivity |].
  apply (config_set_get video_settings "video.output.format"). vm_compute. reflexivity.
Defined.

Lemma split_dot_nonempty key : Settings.split_dot key ≠ [].
Proof.
  unfold Settings.split_dot. generalize (@nil ascii).
  induction key as [| c key IH]; intros cur; simpl; [done |].
  destruct (Ascii.eqb c "."); [done | apply IH].
Qed.

Lemma set_path_succeeds config keys value :
  keys ≠ [] →
  (∀ n reached, (n < length keys)%nat →
     Settings.descend (take n keys) config = Some reached →
     ∃ items, reached = Settings.Mapping items) →
  is_Some (Settings.set_path keys value config).
Proof.
  revert config. induction keys as [| k keys IH]; intros config Hne Hpath; [done |].
  destruct (Hpath 0%nat config) as [items ->]; [simpl; lia | done |].
  destruct keys as [| k2 keys]; [done |].
  rewrite set_path_nested.
  destruct (IH (default (Settings.Mapping []) (Settings.item k items))) as [child' ->];
    [done | | done].
  intros n reached Hn Hreached.
  destruct (Settings.item k items) as [child |] eqn:Hchild; simpl in Hreached.
  - apply (Hpath (S n) reached); [simpl in *; lia |].
    cbn [take Settings.descend]. by rewrite Hchild.
  - destruct n as [| n]; simpl in Hreached; [injection Hreached as <-; by eexists |].
    done.
Qed.

Lemma set_path_Some_mappings keys value config config' :
  Settings.set_path keys value config = Some config' →
  ∀ n reached, (n < length keys)%nat →
    Settings.descend (take n keys) config = Some reached →
    ∃ items, reached = Settings.Mapping items.
Proof.
  revert config config'. induction keys as [| k keys IH]; intros config config' Hset n reached Hn;
    [simpl in Hn; lia |].
  destruct config as [items |]; [| done].
  destruct n as [| n]; [intros [= <-]; by eexists |].
  destruct keys as [| k2 keys]; [simpl in Hn; lia |].
  rewrite set_path_nested in Hset. cbn [take Settings.descend].
  destruct (Settings.item k items) as [child |]; [| done].
  change (default (Settings.Mapping []) (Some child)) with child in Hset.
  destruct (Settings.set_path (k2 :: keys) value child) as [child' |] eqn:Hchild; [| done].
  cbn [mbind option_bind]. apply (IH _ _ Hchild). simpl in Hn |- *. lia.
Qed.

(** X20.  [Config.set] raises exactly when the dotted key runs through a
    value that is not a mapping: the value is stored, missing sections being
    created on the way, if and only if every proper prefix of the key's
    components that can be followed in the configuration ends at a
    mapping. *)
Theorem config_set_succeeds config key value :
  is_Some (Settings.set config key value)
  ↔ (∀ n reached, (n < length (Settings.split_dot key))%nat →
       Settings.descend (take n (Settings.split_dot key)) config = Some reached →
       ∃ items, reached = Settings.Mapping items).
Proof.
  split.
  - intros [config' Hset]. by eapply set_path_Some_mappings.
  - intros Hpath. apply set_path_succeeds; [apply split_dot_nonempty | exact Hpath].
Qed.

Lemma config_set_succeeds_witness :
  is_Some (Settings.set video_settings "captions.font.size" (Settings.Scalar "48")).
Proof.
  apply (proj2 (config_set_succeeds video_settings "captions.font.size"
                  (Settings.Scalar "48"))).
  intros n reached Hn Hreached.
  destruct n as [| n]; [injection Hreached as <-; by eexists |].
  destruct n as [| n]; [vm_compute in Hreached; discriminate |].
  destruct n as [| n]; [vm_compute in Hreached; discriminate |].
  vm_compute in Hn. lia.
Defined.

(** ** Titles *)

Lemma substring_0_0 s : String.substring 0 0 s = EmptyString.
Proof. by destruct s. Qed.

Lemma take_to_question txt q :
  Text.find_char "?" txt = Some q →
  ∃ pre, Text.take (q + 1) txt = pre +:+ "?".
Proof.
  unfold Text.take. rewrite Nat.add_1_r. revert q.
  induction txt as [| d txt IH]; intros q; cbn [Text.find_char]; [done |].
  destruct (Ascii.eqb "?" d) eqn:Hd.
  - intros [= <-]. apply Ascii.eqb_eq in Hd as <-. exists EmptyString.
    cbn [String.substring]. by rewrite substring_0_0.
  - destruct (Text.find_char "?" txt) as [q' |]; [| done].
    intros [= <-]. destruct (IH q' eq_refl) as [pre Hpre].
    exists (String d pre). cbn [String.substring]. by rewrite Hpre.
Qed.

Lemma lstrip_to_question pre : ∃ pre', Text.lstrip (pre +:+ "?") = pre' +:+ "?".
Proof.
  induction pre as [| c pre IH].
  - by exists EmptyString.
  - rewrite append_cons. simpl. destruct (Text.is_space c); [exact IH |].
    by exists (String c pre).
Qed.

Lemma strip_to_question pre : Text.strip (pre +:+ "?") ≠ EmptyString.
Proof.
  unfold Text.strip. destruct (lstrip_to_question pre) as [pre' ->].
  rewrite rev_append. change (String.rev "?") with "?"%string.
  change ("?" +:+ String.rev pre') with (String "?" (String.rev pre')).
  change (Text.lstrip (String "?" (String.rev pre')))
    with (String "?" (String.rev pre')).
  rewrite rev_cons. intros Hempty.
  pose proof (nonempty_append (String.rev (String.rev pre')) "?" EmptyString) as Hne.
  by rewrite Hempty in Hne.
Qed.

Lemma title_nonempty s : s ≠ EmptyString → Text.title s ≠ EmptyString.
Proof. by destruct s. Qed.

Lemma random_choice_templates draw emos :
  Analyzer.random_choice draw (Analyzer.title_templates emos) ≠ EmptyString.
Proof.
  unfold Analyzer.random_choice, Analyzer.title_templates.
  repeat case_match;
    match goal with |- context [(draw mod length ?l)%nat] =>
      change (length l) with 4%nat;
      pose proof (Nat.mod_upper_bound draw 4 ltac:(lia)) as Hlt;
      destruct (draw mod 4)%nat as [| [| [| [| i]]]]; [done | done | done | done | lia]
    end.
Qed.

(** X22.  Every generated title is non-empty: a boost keyword gives "The
    ... Secret", a leading question contains its question mark, and
    otherwise one of the four templates of the emotion is drawn. *)
Theorem generated_title_nonempty cfg draw txt emos :
  Analyzer._generate_title cfg draw txt emos ≠ EmptyString.
Proof.
  unfold Analyzer._generate_title.
  destruct (List.find _ (keywords_boost cfg)) as [keyword |]; [done |].
  destruct (Analyzer.question_title txt) as [t |] eqn:Hquestion;
    [| apply random_choice_templates].
  unfold Analyzer.question_title in Hquestion.
  destruct (Text.find_char "?" txt) as [q |] eqn:Hq; [| done]. simpl in Hquestion.
  destruct (0 <? q)%nat; [| done].
  destruct (_ <=? 8)%nat; [| done].
  injection Hquestion as <-.
  destruct (take_to_question txt q Hq) as [pre ->].
  apply title_nonempty, strip_to_question.
Qed.
